(** * go-snake: the game-state engine of [main.go]

    A shallow embedding of the snake engine of [src/main.go]: the [Point] and
    [Snake] structs, [move], [generateNextPoint], [checkPoint],
    [checkCollisions], the key polling and the timed tick of [run], and the
    package-level variable [snake].

    Modelling choices.
    - [int64] fields are [Z]; every [+=], [++] and [--] of the source is
      followed by [wrap64], the two's-complement wrap of Go's [int64].
    - [direction] and [nextDirection] are bytes holding a character; they are
      [ascii] here, compared with the character literals of the source.
    - [tail] is a Go slice used as a value (every update of the source builds
      or reslices and then stores it back), so it is a [list Point].
    - [rand.Int63n] is the only source of randomness.  The generator is an
      infinite sequence [src : nat -> Z] of raw values together with a read
      position; [Int63n n] reduces the next raw value modulo [n], which is
      what the library does with the value it accepts.
    - A run of the code either returns ([Ok]), dies on a slice bound
      ([Panic]), or recurses beyond the given depth ([Diverge]). *)

From Stdlib Require Import ZArith List Ascii Bool Lia.
Import ListNotations.
Open Scope Z_scope.

(** ** Outcomes of a run *)

Inductive outcome (A : Type) : Type :=
| Ok (a : A)
| Panic
| Diverge.

Arguments Ok {A} a.
Arguments Panic {A}.
Arguments Diverge {A}.

Definition bind {A B : Type} (m : outcome A) (k : A -> outcome B) : outcome B :=
  match m with
  | Ok a => k a
  | Panic => Panic
  | Diverge => Diverge
  end.

Notation "'do' v <- m ; k" := (bind m (fun v => k))
  (at level 10, v name, m at level 100, k at level 200).

(** ** Constants and machine integers *)

(** [const size = 10] *)
Definition size : Z := 10.

(** Two's-complement wrap of a 64-bit signed integer. *)
Definition wrap64 (z : Z) : Z := (z + 2 ^ 63) mod 2 ^ 64 - 2 ^ 63.

(** ** Data *)

(** [type Point struct { x int64; y int64 }] *)
Record Point : Type := mkPoint { x : Z; y : Z }.

(** [==] on [Point]: field-wise equality. *)
Definition Point_eqb (p q : Point) : bool := (x p =? x q) && (y p =? y q).

(** [type Snake struct], fields in the order of the source. *)
Record Snake : Type := mkSnake {
  nextPoint : Point;
  growth : Z;
  direction : ascii;
  nextDirection : ascii;
  head : Point;
  tail : list Point
}.

Definition setNextPoint (p : Point) (s : Snake) : Snake :=
  mkSnake p (growth s) (direction s) (nextDirection s) (head s) (tail s).

Definition setGrowth (g : Z) (s : Snake) : Snake :=
  mkSnake (nextPoint s) g (direction s) (nextDirection s) (head s) (tail s).

Definition setNextDirection (d : ascii) (s : Snake) : Snake :=
  mkSnake (nextPoint s) (growth s) (direction s) d (head s) (tail s).

Definition setTail (t : list Point) (s : Snake) : Snake :=
  mkSnake (nextPoint s) (growth s) (direction s) (nextDirection s) (head s) t.

(** The package-level [var snake Snake]; [nextPoint] is left at its zero value. *)
Definition snake : Snake :=
  mkSnake (mkPoint 0 0) 0 "u"%char "u"%char (mkPoint 3 3)
    [mkPoint 3 4; mkPoint 3 5; mkPoint 3 6; mkPoint 3 7; mkPoint 3 8].

(** ** [move] *)

(** The [switch s.direction] of [move]: the pair [(dX, dY)]; any other byte
    leaves both at 0. *)
Definition step_of (d : ascii) : Z * Z :=
  if Ascii.eqb d "u" then (0, -1)
  else if Ascii.eqb d "d" then (0, 1)
  else if Ascii.eqb d "l" then (-1, 0)
  else if Ascii.eqb d "r" then (1, 0)
  else (0, 0).

(** The two consecutive [if]s that follow each coordinate update. *)
Definition wrapAxis (v : Z) : Z :=
  let v := if v >? 10 then 1 else v in
  if v <? 1 then 10 else v.

Definition move (s : Snake) : outcome Snake :=
  let '(delta, g) :=
    if growth s >? 0 then (0, wrap64 (growth s - 1)) else (1, growth s) in
  let hi := Z.of_nat (length (tail s)) - delta in
  (* s.tail[:len(s.tail)-delta] panics when the bound is negative *)
  if hi <? 0 then Panic
  else
    let t := head s :: firstn (Z.to_nat hi) (tail s) in
    let d := nextDirection s in
    let '(dX, dY) := step_of d in
    let hy := wrapAxis (wrap64 (y (head s) + dY)) in
    let hx := wrapAxis (wrap64 (x (head s) + dX)) in
    Ok (mkSnake (nextPoint s) g d d (mkPoint hx hy) t).

(** ** [checkCollisions] *)

(** The [range] loop of [checkCollisions] over the cells still to visit, [i]
    being the index of the first of them in [whole]. *)
Fixpoint scanTail (h : Point) (whole rest : list Point) (i : nat) : list Point :=
  match rest with
  | [] => whole
  | p :: rest' =>
      if Point_eqb p h then firstn i whole else scanTail h whole rest' (S i)
  end.

Definition checkCollisions (s : Snake) : Snake :=
  setTail (scanTail (head s) (tail s) (tail s) 0%nat) s.

(** ** Randomness, food placement, one tick, the loop of [run] *)

(** [rand.Int63n n] applied to the raw value [raw]. *)
Definition Int63n (n raw : Z) : Z := raw mod n.

(** The snake together with the read position of the generator. *)
Definition World : Type := (Snake * nat)%type.

(** [pixelgl.KeyLeft] and the other three buttons that [run] polls. *)
Inductive Button : Type := KeyLeft | KeyRight | KeyUp | KeyDown.

Definition Button_eqb (a b : Button) : bool :=
  match a, b with
  | KeyLeft, KeyLeft | KeyRight, KeyRight | KeyUp, KeyUp | KeyDown, KeyDown => true
  | _, _ => false
  end.

(** The [range s.tail] loop of [generateNextPoint]; [again] is the recursive
    call. *)
Fixpoint rangeTail (again : Snake -> nat -> outcome World)
    (rest : list Point) (s : Snake) (pos : nat) : outcome World :=
  match rest with
  | [] => Ok (s, pos)
  | p :: rest' =>
      do w <- (if Point_eqb p (nextPoint s) then again s pos else Ok (s, pos));
      rangeTail again rest' (fst w) (snd w)
  end.

Section Engine.

Variable src : nat -> Z.

(** The cell built from the two values read at [pos] and [pos + 1]. *)
Definition randomPoint (pos : nat) : Point :=
  mkPoint (Int63n (size - 1) (src pos) + 1)
          (Int63n (size - 1) (src (S pos)) + 1).

Fixpoint generateNextPoint (fuel : nat) (s : Snake) (pos : nat) : outcome World :=
  match fuel with
  | O => Diverge
  | S fuel' =>
      let s := setNextPoint (randomPoint pos) s in
      let pos := S (S pos) in
      do w <- (if Point_eqb (nextPoint s) (head s)
               then generateNextPoint fuel' s pos
               else Ok (s, pos));
      rangeTail (generateNextPoint fuel') (tail (fst w)) (fst w) (snd w)
  end.

Definition checkPoint (fuel : nat) (s : Snake) (pos : nat) : outcome World :=
  if Point_eqb (head s) (nextPoint s)
  then generateNextPoint fuel (setGrowth (wrap64 (growth s + 1)) s) pos
  else Ok (s, pos).

(** One tick: the three calls made by [run] when the period has elapsed. *)
Definition advance (fuel : nat) (s : Snake) (pos : nat) : outcome World :=
  do s1 <- move s;
  do w <- checkPoint fuel s1 pos;
  Ok (checkCollisions (fst w), snd w).

(** The four key tests of [run], in the order of the source. *)
Definition pollKeys (pressed : Button -> bool) (s : Snake) : Snake :=
  let s := if pressed KeyLeft && negb (Ascii.eqb (direction s) "r")
           then setNextDirection "l" s else s in
  let s := if pressed KeyRight && negb (Ascii.eqb (direction s) "l")
           then setNextDirection "r" s else s in
  let s := if pressed KeyUp && negb (Ascii.eqb (direction s) "d")
           then setNextDirection "u" s else s in
  if pressed KeyDown && negb (Ascii.eqb (direction s) "u")
  then setNextDirection "d" s else s.

(** One iteration of the loop of [run]: poll the keys, then tick when
    [dt > frequency] ([due]). *)
Definition frame (pressed : Button -> bool) (due : bool) (fuel : nat)
    (w : World) : outcome World :=
  let s := pollKeys pressed (fst w) in
  if due then advance fuel s (snd w) else Ok (s, snd w).

(** The states [run] can be in at the top of its loop. *)
Inductive reachable : World -> Prop :=
| reach_start fuel w :
    generateNextPoint fuel snake 0%nat = Ok w -> reachable w
| reach_frame pressed due fuel w w' :
    reachable w -> frame pressed due fuel w = Ok w' -> reachable w'.

(** A finite run of loop iterations. *)
Fixpoint frames (fuel : nat) (inputs : list ((Button -> bool) * bool))
    (w : World) : outcome World :=
  match inputs with
  | [] => Ok w
  | (pressed, due) :: inputs' =>
      do w' <- frame pressed due fuel w;
      frames fuel inputs' w'
  end.

(** [run] up to the end of the given loop iterations. *)
Definition run (fuel : nat) (inputs : list ((Button -> bool) * bool)) : outcome World :=
  do w <- generateNextPoint fuel snake 0%nat;
  frames fuel inputs w.

End Engine.

(** ** Specification-side definitions *)

(** The wrap of one axis as the specification words it: a coordinate above
    [size] becomes 1, one below 1 becomes [size]. *)
Definition wrapSpec (v : Z) : Z :=
  if v >? size then 1 else if v <? 1 then size else v.

(** [p] lies on the snake [s]: it is the head or one of the tail cells. *)
Definition onTail (p : Point) (t : list Point) : bool :=
  existsb (fun q => Point_eqb q p) t.

Definition occupied (s : Snake) (p : Point) : bool :=
  Point_eqb p (head s) || onTail p (tail s).

(** Food placement as the specification words it: draw a cell, redraw while
    it lies on the snake, keep the first one that does not. *)
Fixpoint rejectionSample (src : nat -> Z) (fuel : nat) (s : Snake) (pos : nat)
    : outcome World :=
  match fuel with
  | O => Diverge
  | S fuel' =>
      if occupied s (randomPoint src pos)
      then rejectionSample src fuel' s (S (S pos))
      else Ok (setNextPoint (randomPoint src pos) s, S (S pos))
  end.

(** The direction a button asks for. *)
Definition keyDir (b : Button) : ascii :=
  match b with
  | KeyLeft => "l"
  | KeyRight => "r"
  | KeyUp => "u"
  | KeyDown => "d"
  end%char.

(** [d] is the direct reverse of [c]. *)
Definition isReverse (d c : ascii) : bool :=
  (Ascii.eqb d "l" && Ascii.eqb c "r") || (Ascii.eqb d "r" && Ascii.eqb c "l")
  || (Ascii.eqb d "u" && Ascii.eqb c "d") || (Ascii.eqb d "d" && Ascii.eqb c "u").

Definition isDir (d : ascii) : Prop :=
  d = "u"%char \/ d = "d"%char \/ d = "l"%char \/ d = "r"%char.

Definition inGrid (p : Point) : Prop :=
  1 <= x p <= size /\ 1 <= y p <= size.

(** What holds of the snake at the top of every iteration of [run]. *)
Record wf (s : Snake) : Prop := mkWf {
  wf_head : inGrid (head s);
  wf_next : isDir (nextDirection s);
  wf_growth : 0 <= growth s <= 1;
  wf_tail : tail s <> [];
  wf_food : occupied s (nextPoint s) = false
}.

(** Every cell of the square [1..9] x [1..9] lies on the snake. *)
Definition covered (s : Snake) : bool :=
  forallb (fun i => forallb (fun j =>
      occupied s (mkPoint (Z.of_nat i) (Z.of_nat j))) (seq 1 9)) (seq 1 9).

(** ** Concrete runs *)

(** A generator that yields the given raw values, then zeros. *)
Definition srcOf (l : list Z) : nat -> Z := fun n => nth n l 0.

(** The raw values that make [generateNextPoint] draw the given cells. *)
Definition rawFor (cells : list Point) : list Z :=
  flat_map (fun c => [x c - 1; y c - 1]) cells.

Definition only (b : Button) : Button -> bool := fun k => Button_eqb k b.
Definition none : Button -> bool := fun _ => false.

(** A loop iteration that ticks while [b] is held, or only polls [b]. *)
Definition tick (b : Button) : (Button -> bool) * bool := (only b, true).
Definition poll (b : Button) : (Button -> bool) * bool := (only b, false).
Definition idle : (Button -> bool) * bool := (none, true).

Definition unwrap (r : outcome World) : World :=
  match r with
  | Ok w => w
  | _ => (snake, 0%nat)
  end.

(** *** A tight turn: up, left, down, then right into the own tail *)

Definition loopSrc : nat -> Z := srcOf (rawFor [mkPoint 9 9]).

Definition beforeBite : World :=
  Eval vm_compute in unwrap (run loopSrc 1 [idle; tick KeyLeft; tick KeyDown]).

Definition afterBite : World :=
  Eval vm_compute in unwrap (frame loopSrc (only KeyRight) true 1 beforeBite).

(** *** Food straight ahead, twice in a row *)

Definition feastSrc : nat -> Z :=
  srcOf (rawFor [mkPoint 3 2; mkPoint 2 2; mkPoint 9 9]).

Definition fresh : World := Eval vm_compute in unwrap (run feastSrc 1 []).
Definition fedOnce : World := Eval vm_compute in unwrap (run feastSrc 1 [idle]).
Definition fedTwice : World :=
  Eval vm_compute in unwrap (run feastSrc 1 [idle; tick KeyLeft]).
(** *** Food on the third cell of the tight turn *)

Definition snackSrc : nat -> Z := srcOf (rawFor [mkPoint 2 3; mkPoint 9 9]).

Definition beforeSnack : World :=
  Eval vm_compute in unwrap (run snackSrc 1 [idle; tick KeyLeft]).
Definition afterSnack : World :=
  Eval vm_compute in unwrap (run snackSrc 1 [idle; tick KeyLeft; tick KeyDown]).
Definition snackBitten : World :=
  Eval vm_compute in
    unwrap (run snackSrc 1 [idle; tick KeyLeft; tick KeyDown; tick KeyRight]).

(** *** A pending turn that a rejected reversal does not cancel *)

Definition turning : World :=
  Eval vm_compute in unwrap (run loopSrc 1 [tick KeyRight; poll KeyUp]).

Definition turned : World :=
  Eval vm_compute in unwrap (frame loopSrc (only KeyLeft) true 1 turning).

(** *** Filling the square [1..9] x [1..9]

    The snake leaves through the left edge, comes down the last column and
    re-enters at (1,9); from there it sweeps the rows of the square
    alternately rightwards and leftwards, up to (9,1), and every cell of the
    sweep holds the food when the head arrives. *)

Definition rowCells (r : Z) : list Point :=
  let xs := map Z.of_nat (seq 1 9) in
  map (fun c => mkPoint c r) (if Z.odd r then xs else rev xs).

Definition serpentine : list Point :=
  flat_map rowCells (rev (map Z.of_nat (seq 1 9))).

Definition keyTo (a b : Point) : Button :=
  if y b <? y a then KeyUp else if x a <? x b then KeyRight else KeyLeft.

Fixpoint keysAlong (a : Point) (l : list Point) : list Button :=
  match l with
  | [] => []
  | b :: l' => keyTo a b :: keysAlong b l'
  end.

Definition fillKeys : list Button :=
  repeat KeyLeft 3 ++ repeat KeyDown 6 ++ [KeyRight]
  ++ keysAlong (mkPoint 1 9) (tl serpentine).

Definition fillSrc : nat -> Z := srcOf (rawFor serpentine).

(** The world one tick before the head reaches (9,1), the last free cell of
    the square. *)
Definition lastBite : World :=
  Eval vm_compute in unwrap (run fillSrc 1 (map tick (removelast fillKeys))).

(** ** The shape of the snake *)

(** Where one step of [move] in direction [d] takes a head at [p]. *)
Definition stepped (p : Point) (d : ascii) : Point :=
  mkPoint (wrapAxis (wrap64 (x p + fst (step_of d))))
          (wrapAxis (wrap64 (y p + snd (step_of d)))).

Definition dirs : list ascii := ["u"; "d"; "l"; "r"]%char.

(** [q] is one wrapped step away from [p]. *)
Definition neighboursb (p q : Point) : bool :=
  existsb (fun d => Point_eqb q (stepped p d)) dirs.

(** Every cell of the list is one wrapped step away from the cell after it. *)
Fixpoint linkedb (l : list Point) : bool :=
  match l with
  | p :: r => match r with
              | q :: _ => neighboursb q p && linkedb r
              | [] => true
              end
  | [] => true
  end.

(** The colour of a cell on the chequerboard. *)
Definition parity (p : Point) : bool := Z.odd (x p + y p).

(** All the cells of the grid. *)
Definition gridCells : list Point :=
  flat_map (fun i => map (fun j => mkPoint (Z.of_nat i) (Z.of_nat j)) (seq 1 10))
           (seq 1 10).

(** What holds of the snake, beyond [wf], at the top of every iteration of
    [run]. *)
Record body (s : Snake) : Prop := mkBody {
  body_wf : wf s;
  body_dir : isDir (direction s);
  body_turn : isReverse (nextDirection s) (direction s) = false;
  body_grid : Forall inGrid (tail s);
  body_food : 1 <= x (nextPoint s) <= size - 1 /\ 1 <= y (nextPoint s) <= size - 1;
  body_nodup : NoDup (head s :: tail s);
  body_neck : forall c, hd_error (tail s) = Some c -> head s = stepped c (direction s);
  body_linked : linkedb (head s :: tail s) = true;
  body_len : (3 <= length (tail s))%nat
}.

(** A generator that keeps yielding the cell [c] of the square
    [1..9] x [1..9]. *)
Definition srcAt (c : Point) : nat -> Z :=
  fun n => if Nat.even n then x c - 1 else y c - 1.

(** Some cell of the square [1..9] x [1..9] that is off the snake, if any. *)
Definition freeCell (s : Snake) : option Point :=
  find (fun c => negb (occupied s c))
       (flat_map (fun i => map (fun j => mkPoint (Z.of_nat i) (Z.of_nat j)) (seq 1 9))
                 (seq 1 9)).

(** ** Rendering

    The [float64] values of the rendering code are all integers: they come
    from converting an [int64] and from adding [polySize] to such a value.
    A [float64] is therefore kept as the integer it denotes, and conversion
    and addition round to 53 significant bits, ties to even. *)

(** [const polySize = 50] *)
Definition polySize : Z := 50.

(** The nearest integer with at most 53 significant bits, ties to even. *)
Definition round53 (z : Z) : Z :=
  let a := Z.abs z in
  if a <? 2 ^ 53 then z
  else
    let e := Z.log2 a - 52 in
    let q := Z.shiftr a e in
    let r := a - Z.shiftl q e in
    let half := Z.shiftl 1 (e - 1) in
    let q' := if r <? half then q
              else if half <? r then q + 1
              else if Z.even q then q else q + 1 in
    Z.sgn z * Z.shiftl q' e.

(** [float64(v)] for an [int64] [v]. *)
Definition float64 (v : Z) : Z := round53 v.

(** [a + b] on [float64]. *)
Definition fadd (a b : Z) : Z := round53 (a + b).

Definition convertCords (cx cy : Z) : Z * Z :=
  (float64 (wrap64 (wrap64 (cx - 1) * polySize)),
   float64 (wrap64 (wrap64 (size - cy) * polySize))).

(** Package [pixel], as far as the rendering code uses it. *)
Module pixel.

(** [pixel.RGBA]. *)
Record RGBA : Type := mkRGBA { R : Z; G : Z; B : Z; A : Z }.

(** [pixel.RGB r g b]: an opaque colour. *)
Definition RGB (r g b : Z) : RGBA := mkRGBA r g b 1.

(** [pixel.Vec], built by [pixel.V]. *)
Record Vec : Type := V { X : Z; Y : Z }.

End pixel.

(** Package [imdraw], as far as [drawSquare] uses it: the current colour,
    the points pushed so far with the colour they were pushed in, and the
    filled polygons already drawn. *)
Module imdraw.

Record IMDraw : Type := mkIMDraw {
  Color : pixel.RGBA;
  points : list (pixel.Vec * pixel.RGBA);
  polygons : list (list (pixel.Vec * pixel.RGBA))
}.

(** [imdraw.New(nil)]: white, nothing pushed, nothing drawn. *)
Definition New : IMDraw := mkIMDraw (pixel.RGB 1 1 1) [] [].

(** [imd.Color = c] *)
Definition setColor (c : pixel.RGBA) (imd : IMDraw) : IMDraw :=
  mkIMDraw c (points imd) (polygons imd).

(** [imd.Push]: the points are recorded in the current colour. *)
Definition Push (vs : list pixel.Vec) (imd : IMDraw) : IMDraw :=
  mkIMDraw (Color imd) (points imd ++ map (fun v => (v, Color imd)) vs) (polygons imd).

(** [imd.Polygon(0)]: the pushed points become one filled polygon and are
    forgotten. *)
Definition Polygon (imd : IMDraw) : IMDraw :=
  mkIMDraw (Color imd) [] (polygons imd ++ [points imd]).

End imdraw.

Definition drawSquare (imd : imdraw.IMDraw) (cx cy : Z) (color : pixel.RGBA)
    : imdraw.IMDraw :=
  let imd := imdraw.setColor color imd in
  let '(realX, realY) := convertCords cx cy in
  let imd := imdraw.Push
               [pixel.V realX realY;
                pixel.V (fadd realX polySize) realY;
                pixel.V (fadd realX polySize) (fadd realY polySize);
                pixel.V realX (fadd realY polySize)] imd in
  imdraw.Polygon imd.

(** [func (s *Snake) draw]: the food, the tail cells in order, the head. *)
Definition Snake_draw (s : Snake) (imd : imdraw.IMDraw) : imdraw.IMDraw :=
  let imd := drawSquare imd (x (nextPoint s)) (y (nextPoint s)) (pixel.RGB 0 1 0) in
  let imd := fold_left
               (fun imd point => drawSquare imd (x point) (y point) (pixel.RGB 0 0 1))
               (tail s) imd in
  drawSquare imd (x (head s)) (y (head s)) (pixel.RGB 1 0 0).

(** The square of side [polySize] whose lower left corner is [(px, py)]. *)
Definition squareAt (px py : Z) (c : pixel.RGBA) : list (pixel.Vec * pixel.RGBA) :=
  [(pixel.V px py, c); (pixel.V (px + polySize) py, c);
   (pixel.V (px + polySize) (py + polySize), c); (pixel.V px (py + polySize), c)].

(** The square that the cell [p] occupies on the screen. *)
Definition cellSquare (p : Point) (c : pixel.RGBA) : list (pixel.Vec * pixel.RGBA) :=
  squareAt ((x p - 1) * polySize) ((size - y p) * polySize) c.

(** A vertex inside the window of [run],
    [pixel.R(0, 0, polySize*size, polySize*size)]. *)
Definition inWindow (v : pixel.Vec * pixel.RGBA) : Prop :=
  0 <= pixel.X (fst v) <= polySize * size /\ 0 <= pixel.Y (fst v) <= polySize * size.

(** The cells that [Snake_draw] paints, in order, each with its colour. *)
Definition drawnCells (s : Snake) : list (Point * pixel.RGBA) :=
  (nextPoint s, pixel.RGB 0 1 0)
  :: map (fun p => (p, pixel.RGB 0 0 1)) (tail s) ++ [(head s, pixel.RGB 1 0 0)].

(** ** Several buttons at once *)

(** The place of a button in the sequence of tests of [run]. *)
Definition keyRank (b : Button) : nat :=
  match b with
  | KeyLeft => 0
  | KeyRight => 1
  | KeyUp => 2
  | KeyDown => 3
  end.

(** [b] is held and does not ask for the reverse of the committed direction. *)
Definition accepted (pressed : Button -> bool) (s : Snake) (b : Button) : bool :=
  pressed b && negb (isReverse (keyDir b) (direction s)).

(** A snake whose pending direction is no direction at all. *)
Definition stray : Snake := setNextDirection "x" snake.

(** The cells of the grid that are off the snake. *)
Definition freeGridCells (s : Snake) : list Point :=
  filter (fun c => negb (occupied s c)) gridCells.

(** * Properties *)

(** ** Cells, integers and the wrap of an axis *)

Lemma Point_eqb_eq (p q : Point) : Point_eqb p q = true <-> p = q.
Proof.
  destruct p as [a b], q as [c d]; unfold Point_eqb; simpl.
  rewrite andb_true_iff, !Z.eqb_eq.
  split; [intros [-> ->]; reflexivity | intros [= -> ->]; auto].
Qed.

Lemma Point_eqb_neq (p q : Point) : Point_eqb p q = false <-> p <> q.
Proof.
  rewrite <- Point_eqb_eq. destruct (Point_eqb p q); split; congruence.
Qed.

Lemma Point_eqb_sym (p q : Point) : Point_eqb p q = Point_eqb q p.
Proof.
  unfold Point_eqb. now rewrite (Z.eqb_sym (x p)), (Z.eqb_sym (y p)).
Qed.

Lemma onTail_true_iff (p : Point) (t : list Point) : onTail p t = true <-> In p t.
Proof.
  unfold onTail. rewrite existsb_exists. split.
  - intros (q & Hin & Heq). apply Point_eqb_eq in Heq. now subst.
  - intros Hin. exists p. split; [assumption | now apply Point_eqb_eq].
Qed.

Lemma onTail_false_iff (p : Point) (t : list Point) : onTail p t = false <-> ~ In p t.
Proof.
  rewrite <- onTail_true_iff. destruct (onTail p t); split; congruence.
Qed.

Lemma occupied_false (s : Snake) (p : Point) :
  occupied s p = false <-> p <> head s /\ ~ In p (tail s).
Proof.
  unfold occupied. rewrite orb_false_iff, Point_eqb_neq, onTail_false_iff. tauto.
Qed.

Lemma wrap64_small (z : Z) : - 2 ^ 63 <= z < 2 ^ 63 -> wrap64 z = z.
Proof.
  unfold wrap64. change (2 ^ 64) with (2 * 2 ^ 63).
  intros H. rewrite Z.mod_small; lia.
Qed.

Lemma wrapAxis_wrapSpec (v : Z) : wrapAxis v = wrapSpec v.
Proof.
  unfold wrapAxis, wrapSpec, size.
  destruct (v >? 10) eqn:E; [reflexivity | reflexivity].
Qed.

Lemma wrapSpec_cases (v : Z) :
  (v > size /\ wrapSpec v = 1) \/ (v < 1 /\ wrapSpec v = size) \/
  (1 <= v <= size /\ wrapSpec v = v).
Proof.
  unfold wrapSpec, size.
  destruct (Z.gtb_spec v 10); [lia|].
  destruct (Z.ltb_spec v 1); lia.
Qed.

Lemma wrapAxis_range (v : Z) : 1 <= wrapAxis v <= size.
Proof.
  unfold wrapAxis, size.
  destruct (v >? 10) eqn:E; simpl; [lia|].
  destruct (v <? 1) eqn:F; lia.
Qed.

Lemma randomPoint_range (src : nat -> Z) (pos : nat) :
  1 <= x (randomPoint src pos) <= size - 1 /\ 1 <= y (randomPoint src pos) <= size - 1.
Proof.
  unfold randomPoint, Int63n, size; simpl.
  pose proof (Z.mod_pos_bound (src pos) 9 ltac:(lia)).
  pose proof (Z.mod_pos_bound (src (S pos)) 9 ltac:(lia)).
  lia.
Qed.

(** ** Food placement is rejection sampling *)

Section Placement.

Variable src : nat -> Z.

Lemma rangeTail_miss again rest s pos :
  onTail (nextPoint s) rest = false -> rangeTail again rest s pos = Ok (s, pos).
Proof.
  revert s pos. induction rest as [|p rest IH]; simpl; intros s pos H.
  - reflexivity.
  - apply orb_false_elim in H as [H1 H2]. rewrite H1. simpl. now apply IH.
Qed.

Lemma rangeTail_hit again rest s pos :
  onTail (nextPoint s) rest = true ->
  (forall s' pos', again s pos = Ok (s', pos') -> onTail (nextPoint s') rest = false) ->
  rangeTail again rest s pos = again s pos.
Proof.
  induction rest as [|p rest IH]; simpl; intros Hhit Hfree; [discriminate|].
  destruct (Point_eqb p (nextPoint s)) eqn:E.
  - destruct (again s pos) as [[s' pos']| |] eqn:A; simpl; try reflexivity.
    apply rangeTail_miss.
    specialize (Hfree s' pos' eq_refl). now apply orb_false_elim in Hfree.
  - simpl in *. apply IH; [assumption|].
    intros s' pos' A. apply Hfree in A. now apply orb_false_elim in A.
Qed.

Lemma rejectionSample_setNextPoint fuel p s pos :
  rejectionSample src fuel (setNextPoint p s) pos = rejectionSample src fuel s pos.
Proof.
  revert pos. induction fuel as [|fuel IH]; intros pos; simpl; [reflexivity|].
  rewrite IH. reflexivity.
Qed.

Lemma rejectionSample_ok fuel s pos s' pos' :
  rejectionSample src fuel s pos = Ok (s', pos') ->
  exists at_, s' = setNextPoint (randomPoint src at_) s /\ occupied s (randomPoint src at_) = false.
Proof.
  revert pos. induction fuel as [|fuel IH]; intros pos; simpl; [discriminate|].
  destruct (occupied s (randomPoint src pos)) eqn:E.
  - apply IH.
  - intros [= <- <-]. now exists pos.
Qed.

(** The recursion of the source, with its loop that goes on after a
    redraw, computes exactly the first drawn cell that is off the snake. *)
Lemma generateNextPoint_rejectionSample fuel s pos :
  generateNextPoint src fuel s pos = rejectionSample src fuel s pos.
Proof.
  revert s pos. induction fuel as [|fuel IH]; intros s pos; [reflexivity|].
  cbn [generateNextPoint rejectionSample]. cbv zeta.
  cbn [nextPoint head setNextPoint]. unfold occupied.
  destruct (Point_eqb (randomPoint src pos) (head s)) eqn:E1; cbn [orb].
  - rewrite IH, rejectionSample_setNextPoint.
    destruct (rejectionSample src fuel s (S (S pos))) as [[s' pos']| |] eqn:R;
      cbn [bind fst snd]; try reflexivity.
    apply rangeTail_miss.
    apply rejectionSample_ok in R as (at_ & -> & Hfree).
    apply orb_false_elim in Hfree. cbn. tauto.
  - cbn [bind fst snd tail setNextPoint].
    destruct (onTail (randomPoint src pos) (tail s)) eqn:E2.
    + rewrite rangeTail_hit.
      * now rewrite IH, rejectionSample_setNextPoint.
      * exact E2.
      * intros s' pos'. rewrite IH, rejectionSample_setNextPoint. intros R.
        apply rejectionSample_ok in R as (at_ & -> & Hfree).
        apply orb_false_elim in Hfree. cbn. tauto.
    + now apply rangeTail_miss.
Qed.

Lemma generateNextPoint_ok fuel s pos w :
  generateNextPoint src fuel s pos = Ok w ->
  exists at_, fst w = setNextPoint (randomPoint src at_) s /\ occupied s (randomPoint src at_) = false.
Proof.
  rewrite generateNextPoint_rejectionSample. destruct w as [s' pos'].
  intros R. now apply rejectionSample_ok in R.
Qed.

Lemma generateNextPoint_not_Panic fuel s pos :
  generateNextPoint src fuel s pos <> Panic.
Proof.
  rewrite generateNextPoint_rejectionSample.
  revert pos. induction fuel as [|fuel IH]; intros pos; simpl; [discriminate|].
  destruct (occupied s (randomPoint src pos)); [apply IH | discriminate].
Qed.

(** Placement returns as soon as the depth allows for the first free draw. *)
Lemma generateNextPoint_finds k : forall fuel s pos,
  occupied s (randomPoint src (pos + 2 * k)) = false -> (k < fuel)%nat ->
  exists w, generateNextPoint src fuel s pos = Ok w.
Proof.
  induction k as [|k IH]; intros fuel s pos Hfree Hk;
    (destruct fuel as [|fuel]; [lia|]);
    rewrite generateNextPoint_rejectionSample; simpl.
  - replace (pos + 2 * 0)%nat with pos in Hfree by lia. rewrite Hfree. eauto.
  - destruct (occupied s (randomPoint src pos)); [|eauto].
    rewrite <- generateNextPoint_rejectionSample. apply IH; [|lia].
    now replace (S (S pos) + 2 * k)%nat with (pos + 2 * S k)%nat by lia.
Qed.

Lemma covered_occupied s c :
  covered s = true -> 1 <= x c <= 9 -> 1 <= y c <= 9 -> occupied s c = true.
Proof.
  unfold covered. rewrite forallb_forall. intros H Hx Hy.
  specialize (H (Z.to_nat (x c))). rewrite forallb_forall in H.
  specialize (H ltac:(apply in_seq; lia) (Z.to_nat (y c)) ltac:(apply in_seq; lia)).
  rewrite !Z2Nat.id in H by lia. now destruct c.
Qed.

(** With the square full, every draw is rejected. *)
Lemma generateNextPoint_covered fuel s pos :
  covered s = true -> generateNextPoint src fuel s pos = Diverge.
Proof.
  intros Hc. rewrite generateNextPoint_rejectionSample.
  revert pos. induction fuel as [|fuel IH]; intros pos; simpl; [reflexivity|].
  rewrite covered_occupied; [apply IH | assumption | |];
    pose proof (randomPoint_range src pos); unfold size in *; lia.
Qed.

End Placement.

(** ** [move] and [checkCollisions] on their own *)

(** Field by field, the snake that [move] returns. *)
Lemma move_inv (s s1 : Snake) :
  move s = Ok s1 ->
  nextPoint s1 = nextPoint s /\
  direction s1 = nextDirection s /\
  nextDirection s1 = nextDirection s /\
  growth s1 = (if growth s >? 0 then wrap64 (growth s - 1) else growth s) /\
  tail s1 = head s :: firstn (length (tail s) - (if growth s >? 0 then 0 else 1)) (tail s) /\
  x (head s1) = wrapAxis (wrap64 (x (head s) + fst (step_of (nextDirection s)))) /\
  y (head s1) = wrapAxis (wrap64 (y (head s) + snd (step_of (nextDirection s)))).
Proof.
  unfold move.
  destruct (growth s >? 0) eqn:G;
    destruct (step_of (nextDirection s)) as [dX dY];
    match goal with |- context [?a <? 0] => destruct (a <? 0) eqn:B end;
    try discriminate; intros [= <-]; cbn [nextPoint direction nextDirection growth tail head x y fst snd];
    repeat split; f_equal; f_equal; lia.
Qed.

Lemma move_total (s : Snake) :
  tail s <> [] \/ growth s > 0 -> exists s1, move s = Ok s1.
Proof.
  intros H. unfold move.
  destruct (growth s >? 0) eqn:G;
    destruct (step_of (nextDirection s)) as [dX dY];
    match goal with |- context [?a <? 0] => destruct (a <? 0) eqn:B end;
    eauto; exfalso; apply Z.ltb_lt in B.
  - lia.
  - destruct H as [H | H]; [|lia].
    destruct (tail s); [congruence | simpl length in B; lia].
Qed.

Lemma move_Panic (s : Snake) :
  move s = Panic <-> tail s = [] /\ growth s <= 0.
Proof.
  split.
  - intros H. destruct (tail s) as [|p t] eqn:T.
    + split; [reflexivity|].
      destruct (Z_le_gt_dec (growth s) 0) as [L | L]; [assumption|].
      destruct (move_total s (or_intror L)) as [s1 E]. congruence.
    + destruct (move_total s) as [s1 E]; [left; congruence | congruence].
  - intros [T G]. unfold move. rewrite T.
    destruct (growth s >? 0) eqn:G'; [lia|].
    destruct (step_of (nextDirection s)). reflexivity.
Qed.

Lemma move_not_Diverge (s : Snake) : move s <> Diverge.
Proof.
  unfold move.
  destruct (growth s >? 0); destruct (step_of (nextDirection s));
    match goal with |- context [?a <? 0] => destruct (a <? 0) end; discriminate.
Qed.

Lemma step_of_dir (d : ascii) :
  isDir d ->
  step_of d = (0, -1) \/ step_of d = (0, 1) \/ step_of d = (-1, 0) \/ step_of d = (1, 0).
Proof.
  intros [-> | [-> | [-> | ->]]]; cbv; tauto.
Qed.

(** On the grid, one step in one of the four directions, wrapped, never
    lands on the cell it started from. *)
Lemma move_leaves_cell (s s1 : Snake) :
  inGrid (head s) -> isDir (nextDirection s) -> move s = Ok s1 ->
  head s1 <> head s /\ inGrid (head s1).
Proof.
  intros [Hx Hy] Hd Hm. unfold size in *.
  apply move_inv in Hm as (_ & _ & _ & _ & _ & Ex & Ey).
  split.
  - intros E. rewrite E in Ex, Ey.
    rewrite wrap64_small in Ex, Ey
      by (destruct (step_of_dir _ Hd) as [-> | [-> | [-> | ->]]]; simpl; lia).
    rewrite wrapAxis_wrapSpec in Ex, Ey.
    destruct (wrapSpec_cases (x (head s) + fst (step_of (nextDirection s))))
      as [[? Wx] | [[? Wx] | [? Wx]]];
      destruct (wrapSpec_cases (y (head s) + snd (step_of (nextDirection s))))
        as [[? Wy] | [[? Wy] | [? Wy]]];
      rewrite Wx in Ex; rewrite Wy in Ey;
      destruct (step_of_dir _ Hd) as [R | [R | [R | R]]]; rewrite R in *;
      unfold size in *; simpl in *; lia.
  - unfold inGrid. rewrite Ex, Ey. split; apply wrapAxis_range.
Qed.

Lemma first_occurrence (h : Point) (l : list Point) :
  onTail h l = true ->
  exists mid post, l = mid ++ h :: post /\ onTail h mid = false.
Proof.
  induction l as [|p l IH]; simpl; [discriminate|].
  destruct (Point_eqb p h) eqn:E; simpl.
  - intros _. apply Point_eqb_eq in E as ->. now exists [], l.
  - intros H. destruct (IH H) as (mid & post & -> & Hmid).
    exists (p :: mid), post. simpl. now rewrite E.
Qed.

Lemma scanTail_miss (h : Point) (whole rest : list Point) (i : nat) :
  onTail h rest = false -> scanTail h whole rest i = whole.
Proof.
  revert i. induction rest as [|p rest IH]; simpl; intros i H; [reflexivity|].
  apply orb_false_elim in H as [-> H]. now apply IH.
Qed.

Lemma scanTail_hit (h : Point) (mid post : list Point) : forall pre,
  onTail h mid = false ->
  scanTail h (pre ++ mid ++ h :: post) (mid ++ h :: post) (length pre) = pre ++ mid.
Proof.
  induction mid as [|p mid IH]; simpl; intros pre H.
  - rewrite (proj2 (Point_eqb_eq h h) eq_refl).
    rewrite app_nil_r. rewrite <- (Nat.add_0_r (length pre)).
    now rewrite firstn_app_2, app_nil_r.
  - apply orb_false_elim in H as [-> H].
    specialize (IH (pre ++ [p]) H).
    rewrite <- !app_assoc, length_app, Nat.add_1_r in IH. exact IH.
Qed.

(** [checkCollisions] either finds the head nowhere on the tail and changes
    nothing, or cuts the tail just before the first cell equal to the head. *)
Lemma checkCollisions_cases (s : Snake) :
  (onTail (head s) (tail s) = false /\ checkCollisions s = s) \/
  (exists mid post,
      tail s = mid ++ head s :: post /\ onTail (head s) mid = false /\
      checkCollisions s = setTail mid s).
Proof.
  unfold checkCollisions. destruct (onTail (head s) (tail s)) eqn:E.
  - right. destruct (first_occurrence _ _ E) as (mid & post & T & Hmid).
    exists mid, post. repeat split; try assumption.
    rewrite T at 1 2. f_equal. apply (scanTail_hit (head s) mid post []). assumption.
  - left. split; [reflexivity|]. rewrite scanTail_miss by assumption. now destruct s.
Qed.

Lemma checkCollisions_keeps (s : Snake) :
  nextPoint (checkCollisions s) = nextPoint s /\
  growth (checkCollisions s) = growth s /\
  direction (checkCollisions s) = direction s /\
  nextDirection (checkCollisions s) = nextDirection s /\
  head (checkCollisions s) = head s.
Proof. unfold checkCollisions. cbn. tauto. Qed.

(** ** One tick, and the states [run] reaches *)

Lemma In_firstn {A : Type} (a : A) (n : nat) (l : list A) :
  In a (firstn n l) -> In a l.
Proof.
  intros H. rewrite <- (firstn_skipn n l). apply in_or_app. now left.
Qed.

Lemma pollKeys_shape (pressed : Button -> bool) (s : Snake) :
  exists d, pollKeys pressed s = setNextDirection d s /\
            (d = nextDirection s \/ isDir d).
Proof.
  destruct s as [np g d nd h t]. unfold pollKeys, isDir.
  cbn [direction setNextDirection nextPoint growth nextDirection head tail].
  repeat match goal with
         | |- context [if ?c then _ else _] => destruct c
         end;
    cbn [direction setNextDirection nextPoint growth nextDirection head tail];
    eexists; (split; [reflexivity | tauto]).
Qed.

Lemma wf_setNextDirection (d : ascii) (s : Snake) :
  wf s -> d = nextDirection s \/ isDir d -> wf (setNextDirection d s).
Proof.
  intros [Hh Hn Hg Ht Hf] Hd. constructor; cbn; try assumption.
  destruct Hd as [-> | Hd]; assumption.
Qed.

Lemma wf_pollKeys (pressed : Button -> bool) (s : Snake) :
  wf s -> wf (pollKeys pressed s).
Proof.
  intros H. destruct (pollKeys_shape pressed s) as (d & -> & Hd).
  now apply wf_setNextDirection.
Qed.

(** Reduce field accesses of updated snakes, and nothing else. *)
Ltac fields :=
  cbn [fst snd head tail nextPoint growth direction nextDirection
       setNextPoint setGrowth setTail setNextDirection] in *.

Section Ticks.

Variable src : nat -> Z.

(** What one tick does, phase by phase: [s1] is the snake after [move];
    then either the head is off the food and [checkPoint] changes nothing,
    or it is on it and a fresh food cell is placed; then either the head is
    off the tail, or the tail is cut before the first cell equal to it. *)
Lemma advance_shape fuel s pos w :
  advance src fuel s pos = Ok w ->
  exists s1,
    move s = Ok s1 /\
    head (fst w) = head s1 /\
    direction (fst w) = direction s1 /\
    nextDirection (fst w) = nextDirection s1 /\
    ((head s1 <> nextPoint s1 /\ nextPoint (fst w) = nextPoint s1 /\
      growth (fst w) = growth s1 /\ snd w = pos) \/
     (head s1 = nextPoint s1 /\ growth (fst w) = wrap64 (growth s1 + 1) /\
      nextPoint (fst w) <> head s1 /\ ~ In (nextPoint (fst w)) (tail s1))) /\
    ((onTail (head s1) (tail s1) = false /\ tail (fst w) = tail s1) \/
     (exists mid post,
         tail s1 = mid ++ head s1 :: post /\ onTail (head s1) mid = false /\
         tail (fst w) = mid)).
Proof.
  unfold advance. destruct (move s) as [s1| |] eqn:M; cbn [bind]; try discriminate.
  unfold checkPoint. destruct (Point_eqb (head s1) (nextPoint s1)) eqn:E.
  - destruct (generateNextPoint src fuel _ pos) as [[s2 p2]| |] eqn:G;
      cbn [bind fst snd]; try discriminate.
    intros [= <-]. apply generateNextPoint_ok in G as (at_ & Hs2 & Hfree).
    cbn [fst] in Hs2. subst s2. apply occupied_false in Hfree. fields.
    exists s1. split; [reflexivity|]. cbn [fst snd].
    apply Point_eqb_eq in E.
    destruct (checkCollisions_keeps
                (setNextPoint (randomPoint src at_) (setGrowth (wrap64 (growth s1 + 1)) s1)))
      as (K1 & K2 & K3 & K4 & K5).
    rewrite K1, K2, K3, K4, K5. fields.
    repeat split; try reflexivity.
    + right. tauto.
    + destruct (checkCollisions_cases
                  (setNextPoint (randomPoint src at_) (setGrowth (wrap64 (growth s1 + 1)) s1)))
        as [[C1 C2] | (mid & post & C1 & C2 & C3)].
      * left. rewrite C2. fields. tauto.
      * right. exists mid, post. rewrite C3. fields. tauto.
  - cbn [bind fst snd]. intros [= <-]. exists s1. split; [reflexivity|].
    cbn [fst snd]. apply Point_eqb_neq in E.
    destruct (checkCollisions_keeps s1) as (K1 & K2 & K3 & K4 & K5).
    rewrite K1, K2, K3, K4, K5.
    repeat split; try reflexivity.
    + left. tauto.
    + destruct (checkCollisions_cases s1)
        as [[C1 C2] | (mid & post & C1 & C2 & C3)].
      * left. rewrite C2. tauto.
      * right. exists mid, post. rewrite C3. fields. tauto.
Qed.

Lemma advance_not_Panic fuel s pos :
  tail s <> [] \/ growth s > 0 -> advance src fuel s pos <> Panic.
Proof.
  intros H. destruct (move_total s H) as [s1 M].
  unfold advance. rewrite M. cbn [bind]. unfold checkPoint.
  destruct (Point_eqb (head s1) (nextPoint s1)); [|discriminate].
  destruct (generateNextPoint src fuel _ pos) eqn:G; try discriminate.
  now apply generateNextPoint_not_Panic in G.
Qed.

Lemma wf_advance fuel s pos w :
  wf s -> advance src fuel s pos = Ok w -> wf (fst w).
Proof.
  intros [Hh Hn Hg Ht Hf] A.
  destruct (advance_shape _ _ _ _ A) as (s1 & M & E1 & _ & E3 & Hfood & Htail).
  destruct (move_leaves_cell _ _ Hh Hn M) as [Hne Hin].
  pose proof (move_inv _ _ M) as (I1 & _ & I3 & I4 & I5 & _ & _).
  apply occupied_false in Hf as [Hf1 Hf2].
  assert (G1 : growth s1 = 0).
  { rewrite I4. destruct (Z.gtb_spec (growth s) 0); [|lia].
    rewrite wrap64_small; simpl; lia. }
  assert (Hsub : forall p, In p (tail (fst w)) -> In p (tail s1)).
  { destruct Htail as [[_ ->] | (mid & post & T & _ & ->)]; [auto|].
    intros p Hp. rewrite T. apply in_or_app. now left. }
  constructor.
  - now rewrite E1.
  - now rewrite E3, I3.
  - destruct Hfood as [(_ & _ & -> & _) | (_ & -> & _)]; rewrite G1; [lia|].
    rewrite wrap64_small; simpl; lia.
  - destruct Htail as [[_ ->] | (mid & post & T & _ & ->)].
    + rewrite I5. discriminate.
    + intros ->. rewrite I5 in T. cbn in T. congruence.
  - apply occupied_false. rewrite E1.
    destruct Hfood as [(N & -> & _) | (_ & _ & N1 & N2)].
    + split; [congruence|]. intros Hp. apply Hsub in Hp.
      rewrite I5, I1 in Hp. destruct Hp as [Hp | Hp]; [congruence|].
      apply In_firstn in Hp. rewrite I1 in *. contradiction.
    + split; [assumption|]. intros Hp. now apply Hsub in Hp.
Qed.

Lemma wf_start fuel w :
  generateNextPoint src fuel snake 0%nat = Ok w -> wf (fst w).
Proof.
  intros G. apply generateNextPoint_ok in G as (at_ & -> & Hfree).
  constructor.
  - unfold inGrid, size. cbn. lia.
  - unfold isDir. cbn. tauto.
  - cbn. lia.
  - cbn. discriminate.
  - exact Hfree.
Qed.

Lemma wf_frame pressed due fuel w w' :
  wf (fst w) -> frame src pressed due fuel w = Ok w' -> wf (fst w').
Proof.
  intros H. unfold frame. destruct due.
  - apply wf_advance. now apply wf_pollKeys.
  - intros [= <-]. now apply wf_pollKeys.
Qed.

Lemma reachable_wf w : reachable src w -> wf (fst w).
Proof.
  induction 1 as [fuel w G | pressed due fuel w w' _ IH F].
  - exact (wf_start _ _ G).
  - exact (wf_frame _ _ _ _ _ IH F).
Qed.

Lemma frames_reachable fuel inputs : forall w w',
  reachable src w -> frames src fuel inputs w = Ok w' -> reachable src w'.
Proof.
  induction inputs as [|[pressed due] inputs IH]; cbn [frames]; intros w w' R.
  - now intros [= <-].
  - destruct (frame src pressed due fuel w) as [w1| |] eqn:F; cbn [bind];
      try discriminate.
    apply IH. exact (reach_frame src _ _ _ _ _ R F).
Qed.

Lemma run_reachable fuel inputs w :
  run src fuel inputs = Ok w -> reachable src w.
Proof.
  unfold run.
  destruct (generateNextPoint src fuel snake 0) as [w0| |] eqn:G; cbn [bind];
    try discriminate.
  apply frames_reachable. exact (reach_start src _ _ G).
Qed.

End Ticks.

(** * The claims *)

(** C1, as the code behaves: [rand.Int63n(size - 1) + 1] lies in
    [1 .. size - 1], so both coordinates of every food cell placed by
    [generateNextPoint] are between 1 and 9; no food is ever placed in the
    column [x = size] or the row [y = size]. *)
Theorem food_short_of_last_line (src : nat -> Z) (fuel : nat) (s : Snake)
    (pos : nat) (w : World) :
  generateNextPoint src fuel s pos = Ok w ->
  1 <= x (nextPoint (fst w)) <= size - 1 /\
  1 <= y (nextPoint (fst w)) <= size - 1.
Proof.
  intros G. apply generateNextPoint_ok in G as (at_ & -> & _).
  apply randomPoint_range.
Qed.

Lemma food_short_of_last_line_holds :
  1 <= x (nextPoint (fst fresh)) <= size - 1 /\
  1 <= y (nextPoint (fst fresh)) <= size - 1.
Proof.
  apply (food_short_of_last_line feastSrc 1 snake 0 fresh). reflexivity.
Defined.

(** C7: whenever a food placement returns, be it the first one of [run] or
    one made by [checkPoint], it has left head and tail as they were and the
    food cell is neither the head nor any cell of the tail. *)
Theorem food_off_the_snake (src : nat -> Z) (fuel : nat) (s : Snake)
    (pos : nat) (w : World) :
  generateNextPoint src fuel s pos = Ok w ->
  head (fst w) = head s /\ tail (fst w) = tail s /\
  nextPoint (fst w) <> head (fst w) /\
  ~ In (nextPoint (fst w)) (tail (fst w)).
Proof.
  intros G. apply generateNextPoint_ok in G as (at_ & -> & Hfree).
  apply occupied_false in Hfree. fields. tauto.
Qed.

Lemma food_off_the_snake_holds :
  head (fst fedOnce) = mkPoint 3 2 /\
  tail (fst fedOnce) =
    [mkPoint 3 3; mkPoint 3 4; mkPoint 3 5; mkPoint 3 6; mkPoint 3 7] /\
  nextPoint (fst fedOnce) <> head (fst fedOnce) /\
  ~ In (nextPoint (fst fedOnce)) (tail (fst fedOnce)).
Proof.
  apply (food_off_the_snake feastSrc 1
           (mkSnake (mkPoint 3 2) 1 "u" "u" (mkPoint 3 2)
              [mkPoint 3 3; mkPoint 3 4; mkPoint 3 5; mkPoint 3 6; mkPoint 3 7])
           2 fedOnce).
  reflexivity.
Defined.

(** C9: from head (3,3), tail (3,4) .. (3,8), direction up, nothing pending
    and no growth owed, one tick gives head (3,2) and tail (3,3) .. (3,7),
    wherever the food is; the tick fails to return only if the food was on
    (3,2) and its relocation does not finish. *)
Theorem first_tick_goes_up (src : nat -> Z) (fuel pos : nat) (food : Point) :
  match advance src fuel (setNextPoint food snake) pos with
  | Ok w =>
      head (fst w) = mkPoint 3 2 /\
      tail (fst w) =
        [mkPoint 3 3; mkPoint 3 4; mkPoint 3 5; mkPoint 3 6; mkPoint 3 7]
  | Panic => False
  | Diverge => food = mkPoint 3 2
  end.
Proof.
  unfold advance. change (move (setNextPoint food snake)) with
    (Ok (mkSnake food 0 "u" "u" (mkPoint 3 2)
           [mkPoint 3 3; mkPoint 3 4; mkPoint 3 5; mkPoint 3 6; mkPoint 3 7])).
  cbn [bind]. unfold checkPoint. fields.
  destruct (Point_eqb (mkPoint 3 2) food) eqn:E.
  - apply Point_eqb_eq in E.
    destruct (generateNextPoint src fuel _ pos) as [w| |] eqn:G; cbn [bind].
    + apply generateNextPoint_ok in G as (at_ & -> & _). split; reflexivity.
    + now apply generateNextPoint_not_Panic in G.
    + now symmetry.
  - cbn [bind]. split; reflexivity.
Qed.

(** C10: in every state [run] reaches the tail has at least one cell; there,
    [move] returns a tail that is no shorter and starts with the old head,
    and the new head differs from the old one, so that [checkCollisions]
    keeps at least that first cell. *)
Theorem tail_never_empty (src : nat -> Z) (w : World) :
  reachable src w ->
  (1 <= length (tail (fst w)))%nat /\
  forall pressed, exists s1,
    move (pollKeys pressed (fst w)) = Ok s1 /\
    (length (tail (fst w)) <= length (tail s1))%nat /\
    hd_error (tail s1) = Some (head (fst w)) /\
    head s1 <> head (fst w) /\
    (1 <= length (tail (checkCollisions s1)))%nat.
Proof.
  intros R. apply reachable_wf in R. split.
  - destruct R as [_ _ _ Ht _]. destruct (tail (fst w)); [congruence | simpl; lia].
  - intros pressed. pose proof (wf_pollKeys pressed _ R) as [Hh Hn Hg Ht Hf].
    destruct (pollKeys_shape pressed (fst w)) as (d & Hp & _).
    destruct (move_total (pollKeys pressed (fst w)) (or_introl Ht)) as [s1 M].
    exists s1. split; [assumption|].
    destruct (move_leaves_cell _ _ Hh Hn M) as [Hne _].
    pose proof (move_inv _ _ M) as (_ & _ & _ & _ & I5 & _ & _).
    rewrite Hp in I5, Hne. fields.
    assert (L : (1 <= length (tail (fst w)))%nat).
    { destruct R as [_ _ _ Ht' _].
      destruct (tail (fst w)); [congruence | simpl; lia]. }
    repeat split.
    + rewrite I5. cbn [length]. rewrite length_firstn.
      destruct (growth (fst w) >? 0); lia.
    + now rewrite I5.
    + assumption.
    + destruct (checkCollisions_cases s1)
        as [[_ ->] | (mid & post & T & _ & ->)]; fields.
      * rewrite I5. simpl. lia.
      * destruct mid as [|p mid]; [|simpl; lia].
        rewrite I5 in T. cbn in T. congruence.
Qed.

Lemma tail_never_empty_holds :
  (1 <= length (tail (fst fresh)))%nat /\
  forall pressed, exists s1,
    move (pollKeys pressed (fst fresh)) = Ok s1 /\
    (length (tail (fst fresh)) <= length (tail s1))%nat /\
    hd_error (tail s1) = Some (head (fst fresh)) /\
    head s1 <> head (fst fresh) /\
    (1 <= length (tail (checkCollisions s1)))%nat.
Proof.
  apply (tail_never_empty feastSrc fresh).
  apply (run_reachable feastSrc 1 []). reflexivity.
Defined.

Lemma frame_tick (src : nat -> Z) pressed fuel (w : World) :
  frame src pressed true fuel w = advance src fuel (pollKeys pressed (fst w)) (snd w).
Proof. reflexivity. Qed.

Lemma pollKeys_keeps (pressed : Button -> bool) (s : Snake) :
  nextPoint (pollKeys pressed s) = nextPoint s /\
  growth (pollKeys pressed s) = growth s /\
  direction (pollKeys pressed s) = direction s /\
  head (pollKeys pressed s) = head s /\
  tail (pollKeys pressed s) = tail s.
Proof.
  destruct (pollKeys_shape pressed s) as (d & -> & _). cbn. tauto.
Qed.

Lemma Point_ext (p q : Point) : x p = x q -> y p = y q -> p = q.
Proof. destruct p, q; simpl; intros -> ->; reflexivity. Qed.

Lemma firstn_prefix {A : Type} (l r : list A) : firstn (length l) (l ++ r) = l.
Proof.
  rewrite <- (Nat.add_0_r (length l)). now rewrite firstn_app_2, app_nil_r.
Qed.

(** C4: after a tick from a state [run] reaches, the head is on the grid;
    each coordinate is the old one plus the step of the committed direction,
    wrapped on its own: above [size] it becomes 1, below 1 it becomes
    [size]. *)
Theorem head_stays_on_grid (src : nat -> Z) (w w' : World)
    (pressed : Button -> bool) (fuel : nat) :
  reachable src w ->
  frame src pressed true fuel w = Ok w' ->
  inGrid (head (fst w')) /\
  x (head (fst w')) =
    wrapSpec (x (head (fst w)) + fst (step_of (direction (fst w')))) /\
  y (head (fst w')) =
    wrapSpec (y (head (fst w)) + snd (step_of (direction (fst w')))).
Proof.
  intros R F. apply reachable_wf in R. rewrite frame_tick in F.
  pose proof (wf_pollKeys pressed _ R) as [Hh Hn _ _ _].
  destruct (advance_shape _ _ _ _ _ F) as (s1 & M & -> & -> & _).
  destruct (move_leaves_cell _ _ Hh Hn M) as [_ Hin].
  pose proof (move_inv _ _ M) as (_ & -> & _ & _ & _ & Ex & Ey).
  destruct (pollKeys_keeps pressed (fst w)) as (_ & _ & _ & K & _).
  rewrite K in *. destruct Hh as [Hx Hy]. unfold size in *.
  split; [assumption|].
  rewrite Ex, Ey, !wrapAxis_wrapSpec.
  rewrite !wrap64_small
    by (destruct (step_of_dir _ Hn) as [-> | [-> | [-> | ->]]]; simpl; lia).
  split; reflexivity.
Qed.

Lemma head_stays_on_grid_holds :
  inGrid (head (fst fedOnce)) /\
  x (head (fst fedOnce)) =
    wrapSpec (x (head (fst fresh)) + fst (step_of (direction (fst fedOnce)))) /\
  y (head (fst fedOnce)) =
    wrapSpec (y (head (fst fresh)) + snd (step_of (direction (fst fedOnce)))).
Proof.
  apply (head_stays_on_grid feastSrc fresh fedOnce none 1).
  - apply (run_reachable feastSrc 1 []). reflexivity.
  - reflexivity.
Defined.

(** C5: let [s1] be the snake after [move].  If cell [i] of its tail is the
    first one equal to its head, the tick leaves exactly the first [i] cells
    of that tail, and the head where [move] put it. *)
Theorem collision_truncates (src : nat -> Z) (fuel : nat) (s s1 : Snake)
    (pos : nat) (w : World) (i : nat) :
  move s = Ok s1 ->
  nth_error (tail s1) i = Some (head s1) ->
  (forall j, (j < i)%nat -> nth_error (tail s1) j <> Some (head s1)) ->
  advance src fuel s pos = Ok w ->
  tail (fst w) = firstn i (tail s1) /\ head (fst w) = head s1.
Proof.
  intros M Hi Hfirst A.
  destruct (advance_shape _ _ _ _ _ A) as (s1' & M' & E & _ & _ & _ & Htail).
  rewrite M in M'. injection M' as <-. split; [|assumption].
  destruct Htail as [[Hoff _] | (mid & post & T & Hmid & ->)].
  - apply nth_error_In, onTail_true_iff in Hi. congruence.
  - rewrite T in *. apply onTail_false_iff in Hmid.
    destruct (Nat.lt_trichotomy i (length mid)) as [L | [-> | L]].
    + rewrite nth_error_app1 in Hi by assumption.
      apply nth_error_In in Hi. contradiction.
    + now rewrite firstn_prefix.
    + exfalso. apply (Hfirst (length mid) L).
      rewrite nth_error_app2, Nat.sub_diag by lia. reflexivity.
Qed.

Lemma collision_truncates_holds :
  tail (fst afterBite) = [mkPoint 2 3; mkPoint 2 2; mkPoint 3 2] /\
  head (fst afterBite) = mkPoint 3 3.
Proof.
  apply (collision_truncates loopSrc 1
           (pollKeys (only KeyRight) (fst beforeBite))
           (mkSnake (mkPoint 9 9) 0 "r" "r" (mkPoint 3 3)
              [mkPoint 2 3; mkPoint 2 2; mkPoint 3 2; mkPoint 3 3; mkPoint 3 4])
           2 afterBite 3).
  - reflexivity.
  - reflexivity.
  - intros j Hj. destruct j as [|[|[|j]]]; [discriminate .. | lia].
  - reflexivity.
Defined.




Lemma advance_covered (src : nat -> Z) (fuel : nat) (s s1 : Snake) (pos : nat) :
  move s = Ok s1 -> Point_eqb (head s1) (nextPoint s1) = true ->
  covered s1 = true -> advance src fuel s pos = Diverge.
Proof.
  intros M E C. unfold advance. rewrite M. cbn [bind].
  unfold checkPoint. rewrite E.
  rewrite generateNextPoint_covered; [reflexivity | exact C].
Qed.

(** X18: on every state [run] reaches the slice of [move] is in bounds, so
    [move] returns and the tick does not die on a slice bound; the tick
    returns whenever the moved head is off the food, and otherwise as soon
    as the generator yields a cell off the snake within the depth allowed. *)
Theorem advance_safe (src : nat -> Z) (w : World) (pressed : Button -> bool) :
  reachable src w ->
  exists s1,
    move (pollKeys pressed (fst w)) = Ok s1 /\
    (forall fuel, frame src pressed true fuel w <> Panic) /\
    (head s1 <> nextPoint s1 ->
     forall fuel, exists w', frame src pressed true fuel w = Ok w') /\
    (forall k fuel,
        occupied s1 (randomPoint src (snd w + 2 * k)) = false -> (k < fuel)%nat ->
        exists w', frame src pressed true fuel w = Ok w').
Proof.
  intros R. apply reachable_wf in R.
  pose proof (wf_pollKeys pressed _ R) as [_ _ _ Ht _].
  destruct (move_total _ (or_introl Ht)) as [s1 M].
  exists s1. split; [assumption|]. repeat split.
  - intros fuel. rewrite frame_tick. apply advance_not_Panic. now left.
  - intros Hoff fuel. rewrite frame_tick. unfold advance. rewrite M. cbn [bind].
    unfold checkPoint. apply Point_eqb_neq in Hoff. rewrite Hoff.
    cbn [bind]. eauto.
  - intros k fuel Hfree Hk. rewrite frame_tick. unfold advance. rewrite M.
    cbn [bind]. unfold checkPoint.
    destruct (Point_eqb (head s1) (nextPoint s1)); [|cbn [bind]; eauto].
    destruct (generateNextPoint_finds src k fuel
                (setGrowth (wrap64 (growth s1 + 1)) s1) (snd w) Hfree Hk)
      as [w1 ->].
    cbn [bind]. eauto.
Qed.

Lemma advance_safe_holds :
  exists s1,
    move (pollKeys none (fst fresh)) = Ok s1 /\
    (forall fuel, frame feastSrc none true fuel fresh <> Panic) /\
    (head s1 <> nextPoint s1 ->
     forall fuel, exists w', frame feastSrc none true fuel fresh = Ok w') /\
    (forall k fuel,
        occupied s1 (randomPoint feastSrc (snd fresh + 2 * k)) = false -> (k < fuel)%nat ->
        exists w', frame feastSrc none true fuel fresh = Ok w').
Proof.
  apply (advance_safe feastSrc fresh none).
  apply (run_reachable feastSrc 1 []). reflexivity.
Defined.

(** C3, as the code behaves: [run] reaches a state whose next tick puts the
    head on the food at (9,1) while head and tail cover all of
    [1..9] x [1..9].  Fourteen cells of the grid are then still free, every
    one of them in column 10 or in row 10, where [generateNextPoint] never
    looks: each cell it can draw is rejected, whatever the generator, and
    its recursion goes beyond every depth (for the Go runtime, a fatal stack
    overflow), so the tick does not succeed. *)
Theorem room_left_but_no_food :
  reachable fillSrc lastBite /\
  (exists s1, move (fst lastBite) = Ok s1 /\ head s1 = nextPoint s1 /\
              covered s1 = true /\
              length (freeGridCells s1) = 14%nat /\
              forallb (fun c => (x c =? size) || (y c =? size))
                      (freeGridCells s1) = true) /\
  (forall fuel, frame fillSrc none true fuel lastBite = Diverge) /\
  (forall src fuel pos, advance src fuel (fst lastBite) pos = Diverge).
Proof.
  assert (H : exists s1, move (fst lastBite) = Ok s1 /\
                         Point_eqb (head s1) (nextPoint s1) = true /\
                         covered s1 = true /\
                         length (freeGridCells s1) = 14%nat /\
                         forallb (fun c => (x c =? size) || (y c =? size))
                                 (freeGridCells s1) = true).
  { eexists. split; [vm_compute; reflexivity|].
    repeat split; vm_compute; reflexivity. }
  destruct H as (s1 & M & E & C & F1 & F2).
  split; [|split; [|split]].
  - apply (run_reachable fillSrc 1 (map tick (removelast fillKeys))).
    vm_compute. reflexivity.
  - exists s1. apply Point_eqb_eq in E. auto.
  - intros fuel. rewrite frame_tick.
    change (pollKeys none (fst lastBite)) with (fst lastBite).
    exact (advance_covered _ _ _ _ _ M E C).
  - intros src fuel pos. exact (advance_covered _ _ _ _ _ M E C).
Qed.

Lemma length_pos_of_ne {A : Type} (l : list A) : l <> [] -> (1 <= length l)%nat.
Proof. destruct l; [congruence | simpl; lia]. Qed.

(** C6, amended: take a state [run] reaches and a tick that moves the head
    onto the food.  The meal does not change the tail of that tick: it is
    the tail the tick gives without the meal, as long as before the tick,
    plus one cell when a growth was already owed; and one growth is owed
    afterwards.  At the next tick, whatever direction is then pending, if the
    moved head is on no tail cell the tail ends one cell longer than after
    the tick of the meal, and one cell longer than the same tick gives when
    the owed growth is taken away. *)
Theorem growth_is_delayed (src : nat -> Z) (w w1 : World)
    (pressed : Button -> bool) (fuel : nat) (s1 : Snake) :
  reachable src w ->
  move (pollKeys pressed (fst w)) = Ok s1 ->
  head s1 = nextPoint s1 ->
  frame src pressed true fuel w = Ok w1 ->
  tail (fst w1) = tail (checkCollisions s1) /\
  length (tail (fst w1)) =
    (length (tail (fst w)) + (if growth (fst w) >? 0 then 1 else 0))%nat /\
  growth (fst w1) = 1 /\
  forall d fuel' pos' s2 w2,
    move (setNextDirection d (fst w1)) = Ok s2 ->
    onTail (head s2) (tail s2) = false ->
    advance src fuel' (setNextDirection d (fst w1)) pos' = Ok w2 ->
    length (tail (fst w2)) = S (length (tail (fst w1))) /\
    forall sb,
      move (setGrowth 0 (setNextDirection d (fst w1))) = Ok sb ->
      length (tail (fst w2)) = S (length (tail (checkCollisions sb))).
Proof.
  intros R M Hfood F. apply reachable_wf in R. rewrite frame_tick in F.
  pose proof (wf_pollKeys pressed _ R) as Wp.
  pose proof (wf_advance _ _ _ _ _ Wp F) as [_ _ _ Ht1 _].
  apply length_pos_of_ne in Ht1.
  destruct R as [_ _ Hg Ht Hf]. apply length_pos_of_ne in Ht.
  apply occupied_false in Hf as [Hf1 Hf2].
  destruct (advance_shape _ _ _ _ _ F) as (s1' & M' & _ & _ & _ & Hfd & Htail).
  rewrite M in M'. injection M' as <-.
  pose proof (move_inv _ _ M) as (I1 & _ & _ & I4 & I5 & _ & _).
  destruct (pollKeys_keeps pressed (fst w)) as (Kn & Kg & _ & Kh & Kt).
  rewrite Kn in I1. rewrite Kg in I4, I5. rewrite Kh, Kt in I5.
  assert (G0 : growth s1 = 0).
  { rewrite I4. destruct (Z.gtb_spec (growth (fst w)) 0); [|lia].
    rewrite wrap64_small; simpl; lia. }
  assert (Hoff : onTail (head s1) (tail s1) = false).
  { apply onTail_false_iff. rewrite Hfood, I1, I5. intros [E | E].
    - congruence.
    - apply In_firstn in E. contradiction. }
  assert (T1 : tail (fst w1) = tail s1).
  { destruct Htail as [[_ T] | (mid & post & T & _ & _)]; [assumption|].
    exfalso. apply onTail_false_iff in Hoff. apply Hoff.
    rewrite T. apply in_or_app. right. now left. }
  assert (B1 : tail (checkCollisions s1) = tail s1).
  { destruct (checkCollisions_cases s1) as [[_ ->] | (mid & post & T & _ & _)];
      [reflexivity|].
    exfalso. apply onTail_false_iff in Hoff. apply Hoff.
    rewrite T. apply in_or_app. right. now left. }
  assert (L1 : length (tail (fst w1)) =
               (length (tail (fst w)) + (if growth (fst w) >? 0 then 1 else 0))%nat).
  { rewrite T1, I5. cbn [length]. rewrite length_firstn.
    destruct (growth (fst w) >? 0); lia. }
  assert (G1 : growth (fst w1) = 1).
  { destruct Hfd as [(N & _) | (_ & -> & _)]; [contradiction|].
    rewrite G0. reflexivity. }
  split; [congruence|]. split; [assumption|]. split; [assumption|].
  intros d fuel' pos' s2 w2 M2 Hoff2 A2.
  destruct (advance_shape _ _ _ _ _ A2) as (s2' & M2' & _ & _ & _ & _ & Htail2).
  rewrite M2 in M2'. injection M2' as <-.
  pose proof (move_inv _ _ M2) as (_ & _ & _ & _ & J5 & Jx & Jy).
  fields. rewrite G1 in J5. cbn [Z.gtb Z.compare] in J5.
  rewrite Nat.sub_0_r, firstn_all in J5.
  assert (T2 : tail (fst w2) = tail s2).
  { destruct Htail2 as [[_ T] | (mid & post & T & _ & _)]; [assumption|].
    exfalso. apply onTail_false_iff in Hoff2. apply Hoff2.
    rewrite T. apply in_or_app. right. now left. }
  split.
  - rewrite T2, J5. reflexivity.
  - intros sb Mb.
    pose proof (move_inv _ _ Mb) as (_ & _ & _ & _ & B5 & Bx & By).
    fields. cbn [Z.gtb Z.compare] in B5.
    assert (Hh : head sb = head s2)
      by (apply Point_ext; [now rewrite Bx, Jx | now rewrite By, Jy]).
    destruct (checkCollisions_cases sb)
      as [[_ ->] | (mid & post & T & _ & _)].
    + rewrite T2, J5, B5. cbn [length]. rewrite length_firstn. lia.
    + exfalso. apply onTail_false_iff in Hoff2. apply Hoff2.
      rewrite <- Hh, J5.
      assert (E : In (head sb) (tail sb))
        by (rewrite T; apply in_or_app; right; now left).
      rewrite B5 in E. destruct E as [E | E]; [now left | right].
      now apply In_firstn in E.
Qed.

Lemma growth_is_delayed_holds :
  tail (fst fedTwice) =
    tail (checkCollisions
            (mkSnake (mkPoint 2 2) 0 "l" "l" (mkPoint 2 2)
               [mkPoint 3 2; mkPoint 3 3; mkPoint 3 4; mkPoint 3 5; mkPoint 3 6;
                mkPoint 3 7])) /\
  length (tail (fst fedTwice)) =
    (length (tail (fst fedOnce)) + (if growth (fst fedOnce) >? 0 then 1 else 0))%nat /\
  growth (fst fedTwice) = 1 /\
  forall d fuel' pos' s2 w2,
    move (setNextDirection d (fst fedTwice)) = Ok s2 ->
    onTail (head s2) (tail s2) = false ->
    advance feastSrc fuel' (setNextDirection d (fst fedTwice)) pos' = Ok w2 ->
    length (tail (fst w2)) = S (length (tail (fst fedTwice))) /\
    forall sb,
      move (setGrowth 0 (setNextDirection d (fst fedTwice))) = Ok sb ->
      length (tail (fst w2)) = S (length (tail (checkCollisions sb))).
Proof.
  apply (growth_is_delayed feastSrc fedOnce fedTwice (only KeyLeft) 1
           (mkSnake (mkPoint 2 2) 0 "l" "l" (mkPoint 2 2)
              [mkPoint 3 2; mkPoint 3 3; mkPoint 3 4; mkPoint 3 5; mkPoint 3 6;
               mkPoint 3 7])).
  - apply (run_reachable feastSrc 1 [idle]). reflexivity.
  - reflexivity.
  - reflexivity.
  - reflexivity.
Defined.

(** C6 as stated fails twice over.  With a growth already owed, the tick
    that eats the next food lengthens the tail at once (five cells to six).
    And when the tick after the meal bites the tail, the tail ends at three
    cells, with or without the owed growth, not one cell longer. *)
Lemma growth_delay_fails :
  (reachable feastSrc fedOnce /\
   growth (fst fedOnce) = 1 /\
   (exists s1, move (pollKeys (only KeyLeft) (fst fedOnce)) = Ok s1 /\
               head s1 = nextPoint s1) /\
   frame feastSrc (only KeyLeft) true 1 fedOnce = Ok fedTwice /\
   length (tail (fst fedOnce)) = 5%nat /\
   length (tail (fst fedTwice)) = 6%nat) /\
  (reachable snackSrc beforeSnack /\
   growth (fst beforeSnack) = 0 /\
   (exists s1, move (pollKeys (only KeyDown) (fst beforeSnack)) = Ok s1 /\
               head s1 = nextPoint s1) /\
   frame snackSrc (only KeyDown) true 1 beforeSnack = Ok afterSnack /\
   frame snackSrc (only KeyRight) true 1 afterSnack = Ok snackBitten /\
   length (tail (fst beforeSnack)) = 5%nat /\
   length (tail (fst afterSnack)) = 5%nat /\
   length (tail (fst snackBitten)) = 3%nat /\
   (exists wb,
       advance snackSrc 1
         (setGrowth 0 (pollKeys (only KeyRight) (fst afterSnack)))
         (snd afterSnack) = Ok wb /\
       length (tail (fst wb)) = 3%nat)).
Proof.
  split.
  - split; [apply (run_reachable feastSrc 1 [idle]); reflexivity|].
    split; [reflexivity|].
    split; [eexists; split; reflexivity|].
    repeat split.
  - split; [apply (run_reachable snackSrc 1 [idle; tick KeyLeft]); reflexivity|].
    split; [reflexivity|].
    split; [eexists; split; reflexivity|].
    split; [reflexivity|]. split; [reflexivity|].
    split; [reflexivity|]. split; [reflexivity|]. split; [reflexivity|].
    eexists; split; reflexivity.
Qed.

(** C8, amended: a single pressed button [b] records its direction as the
    pending one unless that direction is the direct reverse of the committed
    one, in which case the snake is left as it was.  Hence the tick after a
    rejected reversal commits the direction that was pending before it; in
    particular, with Right committed and Right pending, pressing Left and
    ticking leaves Right committed. *)
Theorem reversal_is_dropped (src : nat -> Z) (s : Snake) (b : Button)
    (fuel pos : nat) :
  pollKeys (only b) s =
    (if isReverse (keyDir b) (direction s) then s
     else setNextDirection (keyDir b) s) /\
  (forall w,
      isReverse (keyDir b) (direction s) = true ->
      advance src fuel (pollKeys (only b) s) pos = Ok w ->
      direction (fst w) = nextDirection s) /\
  (forall w,
      direction s = "r"%char -> nextDirection s = "r"%char ->
      advance src fuel (pollKeys (only KeyLeft) s) pos = Ok w ->
      direction (fst w) = "r"%char).
Proof.
  assert (P : forall b', pollKeys (only b') s =
                (if isReverse (keyDir b') (direction s) then s
                 else setNextDirection (keyDir b') s)).
  { intros b'. destruct s as [np g d nd h t]. unfold pollKeys, isReverse.
    cbn [direction]. destruct b'; cbn [only Button_eqb keyDir andb orb Ascii.eqb];
      cbn [direction setNextDirection nextPoint growth nextDirection head tail];
      change (Ascii.eqb "l" "l") with true; change (Ascii.eqb "l" "r") with false;
      change (Ascii.eqb "l" "u") with false; change (Ascii.eqb "l" "d") with false;
      change (Ascii.eqb "r" "l") with false; change (Ascii.eqb "r" "r") with true;
      change (Ascii.eqb "r" "u") with false; change (Ascii.eqb "r" "d") with false;
      change (Ascii.eqb "u" "l") with false; change (Ascii.eqb "u" "r") with false;
      change (Ascii.eqb "u" "u") with true; change (Ascii.eqb "u" "d") with false;
      change (Ascii.eqb "d" "l") with false; change (Ascii.eqb "d" "r") with false;
      change (Ascii.eqb "d" "u") with false; change (Ascii.eqb "d" "d") with true;
      cbn [andb orb negb];
      repeat match goal with
             | |- context [Ascii.eqb d ?c] => destruct (Ascii.eqb d c)
             end; reflexivity. }
  assert (Q : forall b' w,
             isReverse (keyDir b') (direction s) = true ->
             advance src fuel (pollKeys (only b') s) pos = Ok w ->
             direction (fst w) = nextDirection s).
  { intros b' w Hrev A. rewrite P, Hrev in A.
    destruct (advance_shape _ _ _ _ _ A) as (s1 & M & _ & -> & _).
    now apply move_inv in M as (_ & -> & _). }
  split; [apply P|]. split; [apply Q|].
  intros w Hd Hn A. rewrite <- Hn. apply (Q KeyLeft w); [|assumption].
  rewrite Hd. reflexivity.
Qed.

Lemma reversal_is_dropped_holds :
  pollKeys (only KeyLeft) (fst afterBite) =
    (if isReverse (keyDir KeyLeft) (direction (fst afterBite)) then fst afterBite
     else setNextDirection (keyDir KeyLeft) (fst afterBite)) /\
  (forall w,
      isReverse (keyDir KeyLeft) (direction (fst afterBite)) = true ->
      advance loopSrc 1 (pollKeys (only KeyLeft) (fst afterBite)) 2 = Ok w ->
      direction (fst w) = nextDirection (fst afterBite)) /\
  (forall w,
      direction (fst afterBite) = "r"%char ->
      nextDirection (fst afterBite) = "r"%char ->
      advance loopSrc 1 (pollKeys (only KeyLeft) (fst afterBite)) 2 = Ok w ->
      direction (fst w) = "r"%char).
Proof.
  apply (reversal_is_dropped loopSrc (fst afterBite) KeyLeft 1 2).
Defined.

(** C8 as stated fails in its consequence: with Right committed and a turn
    Up already accepted and pending, pressing Left is rejected, and the tick
    commits Up, not Right. *)
Lemma pending_turn_survives :
  reachable loopSrc turning /\
  direction (fst turning) = "r"%char /\
  nextDirection (fst turning) = "u"%char /\
  pollKeys (only KeyLeft) (fst turning) = fst turning /\
  frame loopSrc (only KeyLeft) true 1 turning = Ok turned /\
  direction (fst turned) = "u"%char.
Proof.
  split; [|repeat split].
  apply (run_reachable loopSrc 1 [tick KeyRight; poll KeyUp]). reflexivity.
Qed.

(** * Further properties of the engine *)

(** ** Steps on the torus *)

Lemma isDir_cases (d : ascii) :
  isDir d -> In d dirs.
Proof. unfold isDir, dirs. simpl. intuition. Qed.

Lemma isReverse_same (d : ascii) : isDir d -> isReverse d d = false.
Proof. intros [-> | [-> | [-> | ->]]]; reflexivity. Qed.

Lemma stepped_grid (p : Point) (d : ascii) : inGrid (stepped p d).
Proof. split; apply wrapAxis_range. Qed.

Lemma move_head (s s1 : Snake) :
  move s = Ok s1 -> head s1 = stepped (head s) (nextDirection s).
Proof.
  intros M. apply move_inv in M as (_ & _ & _ & _ & _ & Ex & Ey).
  now apply Point_ext.
Qed.

(** On the grid a step changes one coordinate by one, wrapping 11 to 1 and 0
    to 10. *)
Lemma stepped_cases (p : Point) (d : ascii) :
  inGrid p -> isDir d ->
  exists dx dy,
    step_of d = (dx, dy) /\
    ((dx = 0 /\ (dy = 1 \/ dy = -1)) \/ (dy = 0 /\ (dx = 1 \/ dx = -1))) /\
    x (stepped p d) = wrapSpec (x p + dx) /\
    y (stepped p d) = wrapSpec (y p + dy).
Proof.
  intros [Hx Hy] Hd. unfold size in *. unfold stepped. cbn [x y].
  rewrite !wrapAxis_wrapSpec.
  destruct (step_of_dir d Hd) as [E | [E | [E | E]]]; rewrite E; cbn [fst snd];
    do 2 eexists; (split; [reflexivity|]);
    rewrite !wrap64_small by (simpl; lia); (split; [lia | split; reflexivity]).
Qed.

Lemma stepped_parity (p : Point) (d : ascii) :
  inGrid p -> isDir d -> parity (stepped p d) = negb (parity p).
Proof.
  intros Hp Hd. destruct (stepped_cases p d Hp Hd) as (dx & dy & _ & Hs & Ex & Ey).
  destruct Hp as [Hx Hy]. unfold size in *. unfold parity. rewrite Ex, Ey.
  destruct (wrapSpec_cases (x p + dx)) as [[? ->] | [[? ->] | [? ->]]];
    destruct (wrapSpec_cases (y p + dy)) as [[? ->] | [[? ->] | [? ->]]];
    unfold size in *;
    destruct Hs as [[-> [-> | ->]] | [-> [-> | ->]]]; try lia;
    rewrite ?Z.add_0_r;
    try (replace (x p) with 10 by lia); try (replace (y p) with 10 by lia);
    try (replace (x p) with 1 by lia); try (replace (y p) with 1 by lia);
    rewrite <- ?Z.negb_even, ?Z.odd_add, ?Z.even_add; cbn;
    try (destruct (Z.odd (x p)), (Z.odd (y p)); reflexivity);
    try (rewrite <- ?Z.negb_odd; destruct (Z.odd (x p)), (Z.odd (y p)); reflexivity).
Qed.

Lemma stepped_leaves (p : Point) (d : ascii) :
  inGrid p -> isDir d -> stepped p d <> p.
Proof.
  intros Hp Hd E. pose proof (stepped_parity p d Hp Hd) as P.
  rewrite E in P. now destruct (parity p).
Qed.

(** Two steps bring the head back only when the second reverses the first. *)
Lemma stepped_back (c : Point) (d nd : ascii) :
  inGrid c -> isDir d -> isDir nd -> isReverse nd d = false ->
  stepped (stepped c d) nd <> c.
Proof.
  intros Hc Hd Hnd Hrev E.
  destruct (stepped_cases c d Hc Hd) as (dx & dy & Sd & Hs & Ex & Ey).
  destruct (stepped_cases (stepped c d) nd (stepped_grid c d) Hnd)
    as (ex & ey & Sn & Ht & Fx & Fy).
  rewrite E, Ex, Ey in *. destruct Hc as [Hx Hy]. unfold size in *.
  assert (Hopp : ~ (ex = - dx /\ ey = - dy)).
  { intros [E1 E2].
    destruct Hd as [-> | [-> | [-> | ->]]]; destruct Hnd as [-> | [-> | [-> | ->]]];
      cbv in Hrev; try discriminate;
      cbv in Sd, Sn; injection Sd as ? ?; injection Sn as ? ?; lia. }
  destruct (wrapSpec_cases (x c + dx)) as [[? Wx] | [[? Wx] | [? Wx]]];
    destruct (wrapSpec_cases (y c + dy)) as [[? Wy] | [[? Wy] | [? Wy]]];
    rewrite Wx in Fx; rewrite Wy in Fy;
    match type of Fx with _ = wrapSpec ?a =>
      destruct (wrapSpec_cases a) as [[? Vx] | [[? Vx] | [? Vx]]] end;
    match type of Fy with _ = wrapSpec ?a =>
      destruct (wrapSpec_cases a) as [[? Vy] | [[? Vy] | [? Vy]]] end;
    rewrite Vx in Fx; rewrite Vy in Fy; unfold size in *; lia.
Qed.

Lemma neighboursb_stepped (p : Point) (d : ascii) :
  isDir d -> neighboursb p (stepped p d) = true.
Proof.
  intros Hd. unfold neighboursb. apply existsb_exists. exists d.
  split; [now apply isDir_cases | now apply Point_eqb_eq].
Qed.

Lemma neighboursb_parity (p q : Point) :
  inGrid p -> neighboursb p q = true -> parity q = negb (parity p).
Proof.
  intros Hp H. unfold neighboursb in H. apply existsb_exists in H as (d & Hd & E).
  apply Point_eqb_eq in E as ->. apply stepped_parity; [assumption|].
  unfold dirs in Hd. simpl in Hd. unfold isDir. intuition.
Qed.

Lemma linkedb_prefix (l r : list Point) :
  linkedb (l ++ r) = true -> linkedb l = true.
Proof.
  induction l as [|p l IH]; [reflexivity|].
  destruct l as [|q l]; [reflexivity|].
  cbn [app linkedb]. cbn [app] in IH.
  intros H. apply andb_true_iff in H as [H1 H2].
  apply andb_true_iff. split; [assumption | now apply IH].
Qed.

Lemma linkedb_firstn (n : nat) (l : list Point) :
  linkedb l = true -> linkedb (firstn n l) = true.
Proof.
  intros H. apply (linkedb_prefix _ (skipn n l)). now rewrite firstn_skipn.
Qed.

Lemma NoDup_firstn {A : Type} (n : nat) (l : list A) :
  NoDup l -> NoDup (firstn n l).
Proof.
  intros H. rewrite <- (firstn_skipn n l) in H. now apply NoDup_app_remove_r in H.
Qed.

Lemma Forall_firstn {A : Type} (P : A -> Prop) (n : nat) (l : list A) :
  Forall P l -> Forall P (firstn n l).
Proof.
  intros H. rewrite <- (firstn_skipn n l) in H. now apply Forall_app in H.
Qed.

(** ** The shape of the snake is kept *)

Lemma pollKeys_turn (pressed : Button -> bool) (s : Snake) :
  isDir (direction s) ->
  isReverse (nextDirection s) (direction s) = false ->
  isReverse (nextDirection (pollKeys pressed s)) (direction s) = false.
Proof.
  destruct s as [np g d nd h t]. cbn [direction nextDirection].
  intros Hd Hrev. unfold pollKeys.
  destruct Hd as [-> | [-> | [-> | ->]]];
    destruct (pressed KeyLeft), (pressed KeyRight), (pressed KeyUp), (pressed KeyDown);
    cbn; first [exact Hrev | reflexivity].
Qed.

Lemma body_pollKeys (pressed : Button -> bool) (s : Snake) :
  body s -> body (pollKeys pressed s).
Proof.
  intros [Hw Hd Ht Hg Hf Hn Hk Hl Hlen].
  pose proof (wf_pollKeys pressed s Hw) as Hw'.
  pose proof (pollKeys_turn pressed s Hd Ht) as Ht'.
  destruct (pollKeys_keeps pressed s) as (K1 & K2 & K3 & K4 & K5).
  constructor; rewrite ?K1, ?K3, ?K4, ?K5; assumption.
Qed.

Lemma body_start (src : nat -> Z) (fuel : nat) (w : World) :
  generateNextPoint src fuel snake 0%nat = Ok w -> body (fst w).
Proof.
  intros G. pose proof (wf_start src fuel w G) as Hw.
  apply generateNextPoint_ok in G as (at_ & E & _).
  rewrite E in *. constructor; fields.
  - assumption.
  - unfold isDir. cbn. tauto.
  - reflexivity.
  - cbn. repeat constructor; unfold size; cbn; lia.
  - apply randomPoint_range.
  - cbn. repeat constructor; cbn; intuition congruence.
  - cbn. intros c [= <-]. reflexivity.
  - reflexivity.
  - cbn. lia.
Qed.

Lemma advance_food (src : nat -> Z) fuel s pos w :
  advance src fuel s pos = Ok w ->
  nextPoint (fst w) = nextPoint s \/
  exists at_, nextPoint (fst w) = randomPoint src at_.
Proof.
  unfold advance. destruct (move s) as [s1| |] eqn:M; cbn [bind]; try discriminate.
  apply move_inv in M as (I1 & _).
  unfold checkPoint. destruct (Point_eqb (head s1) (nextPoint s1)).
  - destruct (generateNextPoint src fuel _ pos) as [[s2 p2]| |] eqn:G;
      cbn [bind fst snd]; try discriminate.
    intros [= <-]. apply generateNextPoint_ok in G as (at_ & Hs2 & _).
    cbn [fst] in Hs2. subst s2. right. exists at_. cbn [fst].
    now rewrite (proj1 (checkCollisions_keeps _)).
  - cbn [bind fst snd]. intros [= <-]. left. cbn [fst].
    now rewrite (proj1 (checkCollisions_keeps _)).
Qed.

Lemma body_advance (src : nat -> Z) fuel s pos w :
  body s -> advance src fuel s pos = Ok w -> body (fst w).
Proof.
  intros [Hw Hd Ht Hg Hf Hn Hk Hl Hlen] A.
  pose proof (wf_advance src _ _ _ _ Hw A) as Hw'.
  pose proof (advance_food src _ _ _ _ A) as Hfood.
  destruct (advance_shape src _ _ _ _ A) as (s1 & M & E1 & E2 & E3 & _ & Htail).
  pose proof (move_head _ _ M) as Hh.
  pose proof (move_inv _ _ M) as (_ & I2 & I3 & _ & I5 & _ & _).
  destruct Hw as [Hin Hnd Hgr _ _].
  destruct (tail s) as [|c1 [|c2 [|c3 t]]] eqn:T; cbn [length] in Hlen; try lia.
  assert (K : exists rest, tail s1 = head s :: c1 :: c2 :: rest /\
                           exists post, c3 :: t = rest ++ post).
  { rewrite I5. destruct (growth s >? 0).
    - exists (c3 :: t). split.
      + now rewrite Nat.sub_0_r, firstn_all.
      + exists []. now rewrite app_nil_r.
    - cbn [length].
      replace (S (S (S (length t))) - 1)%nat with (S (S (length t))) by lia.
      cbn [firstn]. exists (firstn (length t) (c3 :: t)). split; [reflexivity|].
      exists (skipn (length t) (c3 :: t)). now rewrite firstn_skipn. }
  destruct K as (rest & T1 & post1 & Hrest).
  inversion Hg as [|? ? G1 Hg1]; subst. inversion Hg1 as [|? ? G2 Hg2]; subst.
  apply andb_true_iff in Hl as [L0 Hl]. apply andb_true_iff in Hl as [L1 Hl].
  assert (N0 : head s1 <> head s)
    by (rewrite Hh; now apply stepped_leaves).
  assert (N1 : head s1 <> c1).
  { rewrite Hh, (Hk c1 eq_refl). now apply stepped_back. }
  assert (N2 : head s1 <> c2).
  { intros E. pose proof (stepped_parity (head s) (nextDirection s) Hin Hnd) as P.
    rewrite <- Hh, E in P.
    rewrite (neighboursb_parity c1 (head s) G1 L0) in P.
    rewrite (neighboursb_parity c2 c1 G2 L1) in P.
    now destruct (parity c2). }
  assert (Ds1 : NoDup (tail s1)).
  { rewrite I5. apply (NoDup_firstn (S (length (c1 :: c2 :: c3 :: t)
                                        - (if growth s >? 0 then 0 else 1)))
                         (head s :: c1 :: c2 :: c3 :: t)) in Hn.
    exact Hn. }
  assert (Gs1 : Forall inGrid (tail s1)).
  { rewrite I5. constructor; [assumption|]. now apply Forall_firstn. }
  assert (Ls1 : linkedb (head s1 :: tail s1) = true).
  { cbn [linkedb]. rewrite T1. rewrite <- T1.
    apply andb_true_iff. split.
    - rewrite Hh. now apply neighboursb_stepped.
    - rewrite I5.
      apply (linkedb_firstn (S (length (c1 :: c2 :: c3 :: t)
                               - (if growth s >? 0 then 0 else 1)))
               (head s :: c1 :: c2 :: c3 :: t)).
      cbn [linkedb]. now rewrite L0, L1. }
  assert (Hcut : exists post, tail s1 = tail (fst w) ++ post /\
                              ~ In (head s1) (tail (fst w)) /\
                              (3 <= length (tail (fst w)))%nat /\
                              hd_error (tail (fst w)) = Some (head s)).
  { destruct Htail as [[Hoff ->] | (mid & post & Tm & Hmid & ->)].
    - exists []. rewrite app_nil_r. apply onTail_false_iff in Hoff.
      repeat split; try assumption; rewrite T1; cbn; [lia | reflexivity].
    - exists (head s1 :: post). apply onTail_false_iff in Hmid.
      split; [assumption|]. split; [assumption|].
      rewrite T1 in Tm.
      destruct mid as [|m0 mid]; cbn [app] in Tm.
      { injection Tm as E0 _. congruence. }
      injection Tm as <- Tm. destruct mid as [|m1 mid]; cbn [app] in Tm.
      { injection Tm as E0 _. congruence. }
      injection Tm as <- Tm. destruct mid as [|m2 mid]; cbn [app] in Tm.
      { injection Tm as E0 _. congruence. }
      split; [cbn; lia | reflexivity]. }
  destruct Hcut as (post & Tw & Hoffw & Lw & Hdw).
  constructor.
  - assumption.
  - now rewrite E2, I2.
  - rewrite E3, I3, E2, I2. now apply isReverse_same.
  - rewrite Tw in Gs1. now apply Forall_app in Gs1.
  - destruct Hfood as [-> | [at_ ->]]; [assumption | apply randomPoint_range].
  - rewrite E1. constructor; [assumption|].
    rewrite Tw in Ds1. now apply NoDup_app_remove_r in Ds1.
  - intros c Hc. rewrite Hdw in Hc. injection Hc as <-.
    now rewrite E1, E2, I2.
  - rewrite E1. apply (linkedb_prefix _ post). cbn [app]. now rewrite <- Tw.
  - assumption.
Qed.

Lemma body_frame (src : nat -> Z) pressed due fuel w w' :
  body (fst w) -> frame src pressed due fuel w = Ok w' -> body (fst w').
Proof.
  intros H. unfold frame. destruct due.
  - apply body_advance. now apply body_pollKeys.
  - intros [= <-]. now apply body_pollKeys.
Qed.

Lemma reachable_body (src : nat -> Z) (w : World) :
  reachable src w -> body (fst w).
Proof.
  induction 1 as [fuel w G | pressed due fuel w w' _ IH F].
  - exact (body_start _ _ _ G).
  - exact (body_frame _ _ _ _ _ _ IH F).
Qed.

Lemma inGrid_gridCells (p : Point) : inGrid p -> In p gridCells.
Proof.
  intros [Hx Hy]. unfold size in *. unfold gridCells.
  apply in_flat_map. exists (Z.to_nat (x p)). split; [apply in_seq; lia|].
  apply in_map_iff. exists (Z.to_nat (y p)). split; [|apply in_seq; lia].
  rewrite !Z2Nat.id by lia. now destruct p.
Qed.

(** * Properties beyond the claims *)

(** X1: in every state [run] reaches, the head and every tail cell lie on
    the 10 x 10 grid, and the food lies in the square [1..9] x [1..9]. *)
Theorem cells_stay_on_grid (src : nat -> Z) (w : World) :
  reachable src w ->
  inGrid (head (fst w)) /\ Forall inGrid (tail (fst w)) /\
  1 <= x (nextPoint (fst w)) <= size - 1 /\
  1 <= y (nextPoint (fst w)) <= size - 1.
Proof.
  intros R. apply reachable_body in R as [[Hh _ _ _ _] _ _ Hg Hf _ _ _ _]. tauto.
Qed.

Lemma cells_stay_on_grid_holds :
  inGrid (head (fst afterBite)) /\ Forall inGrid (tail (fst afterBite)) /\
  1 <= x (nextPoint (fst afterBite)) <= size - 1 /\
  1 <= y (nextPoint (fst afterBite)) <= size - 1.
Proof.
  apply (cells_stay_on_grid loopSrc afterBite).
  apply (run_reachable loopSrc 1 [idle; tick KeyLeft; tick KeyDown; tick KeyRight]).
  reflexivity.
Defined.

(** X2: in every state [run] reaches, the head and the tail cells are
    pairwise different cells, and the food is none of them: at the top of
    the loop the snake never lies on itself or on the food. *)
Theorem snake_never_overlaps (src : nat -> Z) (w : World) :
  reachable src w ->
  NoDup (head (fst w) :: tail (fst w)) /\
  ~ In (nextPoint (fst w)) (head (fst w) :: tail (fst w)).
Proof.
  intros R. apply reachable_body in R as [[_ _ _ _ Hf] _ _ _ _ Hn _ _ _].
  split; [assumption|]. apply occupied_false in Hf as [Hf1 Hf2].
  intros [E | E]; [congruence | contradiction].
Qed.

Lemma snake_never_overlaps_holds :
  NoDup (head (fst afterBite) :: tail (fst afterBite)) /\
  ~ In (nextPoint (fst afterBite)) (head (fst afterBite) :: tail (fst afterBite)).
Proof.
  apply (snake_never_overlaps loopSrc afterBite).
  apply (run_reachable loopSrc 1 [idle; tick KeyLeft; tick KeyDown; tick KeyRight]).
  reflexivity.
Defined.

(** X3: in every state [run] reaches, the tail has at least three and at
    most ninety-nine cells.  (A bite can only happen on the fourth tail cell
    or later: the first is the cell just left, the second would need a
    reversal, and the third has the wrong colour on the chequerboard.) *)
Theorem tail_length_bounds (src : nat -> Z) (w : World) :
  reachable src w ->
  (3 <= length (tail (fst w)) <= 99)%nat.
Proof.
  intros R. apply reachable_body in R as [[Hh _ _ _ _] _ _ Hg _ Hn _ _ Hlen].
  split; [assumption|].
  assert (L : (length (head (fst w) :: tail (fst w)) <= length gridCells)%nat).
  { apply NoDup_incl_length; [assumption|].
    intros p [<- | Hp]; apply inGrid_gridCells; [assumption|].
    rewrite Forall_forall in Hg. now apply Hg. }
  change (length gridCells) with 100%nat in L. cbn [length] in L. lia.
Qed.

Lemma tail_length_bounds_holds :
  (3 <= length (tail (fst afterBite)) <= 99)%nat.
Proof.
  apply (tail_length_bounds loopSrc afterBite).
  apply (run_reachable loopSrc 1 [idle; tick KeyLeft; tick KeyDown; tick KeyRight]).
  reflexivity.
Defined.

(** X4: in every state [run] reaches, the snake is connected: the head is
    one step in the committed direction from the first tail cell, and every
    tail cell is one wrapped step from the next. *)
Theorem snake_is_connected (src : nat -> Z) (w : World) :
  reachable src w ->
  linkedb (head (fst w) :: tail (fst w)) = true /\
  exists c, hd_error (tail (fst w)) = Some c /\
            head (fst w) = stepped c (direction (fst w)).
Proof.
  intros R. apply reachable_body in R as [_ _ _ _ _ _ Hk Hl Hlen].
  split; [assumption|].
  destruct (tail (fst w)) as [|c t]; [cbn in Hlen; lia|].
  exists c. split; [reflexivity | now apply Hk].
Qed.

Lemma snake_is_connected_holds :
  linkedb (head (fst lastBite) :: tail (fst lastBite)) = true /\
  exists c, hd_error (tail (fst lastBite)) = Some c /\
            head (fst lastBite) = stepped c (direction (fst lastBite)).
Proof.
  apply (snake_is_connected fillSrc lastBite).
  apply (run_reachable fillSrc 1 (map tick (removelast fillKeys))).
  vm_compute. reflexivity.
Defined.

(** X5: in every state [run] reaches, both direction bytes are one of
    u, d, l, r, the pending direction is not the reverse of the committed
    one, and at most one growth is owed. *)
Theorem directions_and_growth (src : nat -> Z) (w : World) :
  reachable src w ->
  isDir (direction (fst w)) /\ isDir (nextDirection (fst w)) /\
  isReverse (nextDirection (fst w)) (direction (fst w)) = false /\
  (growth (fst w) = 0 \/ growth (fst w) = 1).
Proof.
  intros R. apply reachable_body in R as [[_ Hn Hg _ _] Hd Ht _ _ _ _ _ _].
  repeat split; try assumption. lia.
Qed.

Lemma directions_and_growth_holds :
  isDir (direction (fst turning)) /\ isDir (nextDirection (fst turning)) /\
  isReverse (nextDirection (fst turning)) (direction (fst turning)) = false /\
  (growth (fst turning) = 0 \/ growth (fst turning) = 1).
Proof.
  apply (directions_and_growth loopSrc turning).
  apply (run_reachable loopSrc 1 [tick KeyRight; poll KeyUp]). reflexivity.
Defined.

(** X6: after a tick from a state [run] reaches, one growth is owed exactly
    when the head moved onto the food, and then the food has moved to
    another cell; otherwise no growth is owed, the food stays where it was
    and no random value is consumed. *)
Theorem growth_marks_a_meal (src : nat -> Z) (w w' : World)
    (pressed : Button -> bool) (fuel : nat) (s1 : Snake) :
  reachable src w ->
  move (pollKeys pressed (fst w)) = Ok s1 ->
  frame src pressed true fuel w = Ok w' ->
  (head s1 = nextPoint (fst w) ->
   growth (fst w') = 1 /\ nextPoint (fst w') <> nextPoint (fst w)) /\
  (head s1 <> nextPoint (fst w) ->
   growth (fst w') = 0 /\ nextPoint (fst w') = nextPoint (fst w) /\
   snd w' = snd w).
Proof.
  intros R M F. apply reachable_wf in R. rewrite frame_tick in F.
  pose proof (wf_pollKeys pressed _ R) as [_ _ Hg _ _].
  destruct (advance_shape _ _ _ _ _ F) as (s1' & M' & _ & _ & _ & Hfd & _).
  rewrite M in M'. injection M' as <-.
  pose proof (move_inv _ _ M) as (I1 & _ & _ & I4 & _).
  destruct (pollKeys_keeps pressed (fst w)) as (Kn & _).
  rewrite Kn in I1.
  assert (G1 : growth s1 = 0).
  { rewrite I4. destruct (Z.gtb_spec (growth (pollKeys pressed (fst w))) 0); [|lia].
    rewrite wrap64_small; simpl; lia. }
  rewrite <- I1. split; intros H.
  - destruct Hfd as [(N & _) | (_ & -> & N & _)]; [contradiction|].
    rewrite G1. split; [reflexivity | congruence].
  - destruct Hfd as [(_ & -> & -> & ->) | (E & _)]; [|contradiction].
    rewrite G1. repeat split.
Qed.

Lemma growth_marks_a_meal_holds :
  (mkPoint 3 2 = nextPoint (fst fresh) ->
   growth (fst fedOnce) = 1 /\ nextPoint (fst fedOnce) <> nextPoint (fst fresh)) /\
  (mkPoint 3 2 <> nextPoint (fst fresh) ->
   growth (fst fedOnce) = 0 /\ nextPoint (fst fedOnce) = nextPoint (fst fresh) /\
   snd fedOnce = snd fresh).
Proof.
  apply (growth_marks_a_meal feastSrc fresh fedOnce none 1
           (mkSnake (mkPoint 3 2) 0 "u" "u" (mkPoint 3 2)
              [mkPoint 3 3; mkPoint 3 4; mkPoint 3 5; mkPoint 3 6; mkPoint 3 7])).
  - apply (run_reachable feastSrc 1 []). reflexivity.
  - reflexivity.
  - reflexivity.
Defined.

Lemma rejectionSample_characterised (src : nat -> Z) (s : Snake) :
  forall fuel pos,
  match rejectionSample src fuel s pos with
  | Ok w =>
      exists k, (k < fuel)%nat /\
        (forall j, (j < k)%nat -> occupied s (randomPoint src (pos + 2 * j)) = true) /\
        occupied s (randomPoint src (pos + 2 * k)) = false /\
        w = (setNextPoint (randomPoint src (pos + 2 * k)) s, (pos + 2 * k + 2)%nat)
  | Panic => False
  | Diverge =>
      forall j, (j < fuel)%nat -> occupied s (randomPoint src (pos + 2 * j)) = true
  end.
Proof.
  induction fuel as [|fuel IH]; intros pos; cbn [rejectionSample].
  - intros j Hj. lia.
  - destruct (occupied s (randomPoint src pos)) eqn:E.
    + specialize (IH (S (S pos))).
      destruct (rejectionSample src fuel s (S (S pos))) as [w| |].
      * destruct IH as (k & Hk & Hbefore & Hfree & ->).
        exists (S k). split; [lia|].
        replace (pos + 2 * S k)%nat with (S (S pos) + 2 * k)%nat by lia.
        split; [|split; [assumption | f_equal; lia]].
        intros [|j] Hj.
        -- now replace (pos + 2 * 0)%nat with pos by lia.
        -- replace (pos + 2 * S j)%nat with (S (S pos) + 2 * j)%nat by lia.
           apply Hbefore. lia.
      * assumption.
      * intros [|j] Hj.
        -- now replace (pos + 2 * 0)%nat with pos by lia.
        -- replace (pos + 2 * S j)%nat with (S (S pos) + 2 * j)%nat by lia.
           apply IH. lia.
    + exists 0%nat. replace (pos + 2 * 0)%nat with pos by lia.
      split; [lia|]. split; [intros j Hj; lia|]. split; [assumption|].
      f_equal. lia.
Qed.

(** X7: [generateNextPoint] never panics.  When it returns, it has read the
    generator two values at a time, every cell drawn before the last was on
    the snake, the last one is not and is the new food, and nothing else of
    the snake has changed.  When it runs out of depth, every cell drawn so
    far was on the snake. *)
Theorem placement_characterised (src : nat -> Z) (fuel : nat) (s : Snake)
    (pos : nat) :
  match generateNextPoint src fuel s pos with
  | Ok w =>
      exists k, (k < fuel)%nat /\
        (forall j, (j < k)%nat -> occupied s (randomPoint src (pos + 2 * j)) = true) /\
        occupied s (randomPoint src (pos + 2 * k)) = false /\
        w = (setNextPoint (randomPoint src (pos + 2 * k)) s, (pos + 2 * k + 2)%nat)
  | Panic => False
  | Diverge =>
      forall j, (j < fuel)%nat -> occupied s (randomPoint src (pos + 2 * j)) = true
  end.
Proof.
  rewrite generateNextPoint_rejectionSample. apply rejectionSample_characterised.
Qed.

Lemma randomPoint_srcAt (c : Point) (pos : nat) :
  1 <= x c <= 9 -> 1 <= y c <= 9 -> Nat.even pos = true ->
  randomPoint (srcAt c) pos = c.
Proof.
  intros Hx Hy He. unfold randomPoint, srcAt, Int63n, size.
  rewrite He. rewrite Nat.even_succ, <- Nat.negb_even, He. cbn [negb].
  rewrite !Z.mod_small by lia. destruct c; cbn [x y]. f_equal; lia.
Qed.

Lemma freeCell_spec (s : Snake) :
  match freeCell s with
  | Some c => 1 <= x c <= 9 /\ 1 <= y c <= 9 /\ occupied s c = false
  | None => covered s = true
  end.
Proof.
  unfold freeCell.
  destruct (find _ _) as [c|] eqn:F.
  - apply find_some in F as [Hin Hfree].
    apply in_flat_map in Hin as (i & Hi & Hin).
    apply in_map_iff in Hin as (j & <- & Hj).
    apply in_seq in Hi. apply in_seq in Hj. cbn [x y].
    repeat split; try lia. now destruct (occupied s _).
  - unfold covered. apply forallb_forall. intros i Hi.
    apply forallb_forall. intros j Hj.
    pose proof (find_none _ _ F (mkPoint (Z.of_nat i) (Z.of_nat j))) as N.
    cbv beta in N. destruct (occupied s _); [reflexivity|].
    discriminate N. apply in_flat_map. exists i. split; [assumption|].
    apply in_map_iff. now exists j.
Qed.

(** X8: a food placement can return, for some generator and some depth,
    exactly when some cell of the square [1..9] x [1..9] is off the snake;
    with the square covered it returns for none. *)
Theorem placement_needs_room (s : Snake) :
  (exists src fuel pos w, generateNextPoint src fuel s pos = Ok w) <->
  covered s = false.
Proof.
  split.
  - intros (src & fuel & pos & w & G).
    destruct (covered s) eqn:C; [|reflexivity].
    rewrite generateNextPoint_covered in G by assumption. discriminate.
  - intros C. pose proof (freeCell_spec s) as F.
    destruct (freeCell s) as [c|]; [|congruence].
    destruct F as (Hx & Hy & Hfree).
    exists (srcAt c), 1%nat, 0%nat.
    rewrite generateNextPoint_rejectionSample. cbn [rejectionSample].
    rewrite (randomPoint_srcAt c 0 Hx Hy eq_refl), Hfree. eauto.
Qed.

(** X9: [move] dies on its slice bound exactly when it is called with an
    empty tail and no growth owed; in every other case it returns, and it
    never loops. *)
Theorem move_slice_bound (s : Snake) :
  (move s = Panic <-> tail s = [] /\ growth s <= 0) /\
  ((exists s1, move s = Ok s1) <-> tail s <> [] \/ growth s > 0) /\
  move s <> Diverge.
Proof.
  split; [apply move_Panic|]. split; [|apply move_not_Diverge].
  split.
  - intros [s1 M]. destruct (tail s) as [|p t] eqn:T; [|left; discriminate].
    right. destruct (Z_le_gt_dec (growth s) 0) as [L | L]; [|assumption].
    assert (P : move s = Panic) by (apply move_Panic; auto). congruence.
  - apply move_total.
Qed.

(** X10: whatever the snake, wherever its head and whatever byte its pending
    direction holds, the head that [move] returns is on the grid. *)
Theorem move_lands_on_grid (s s1 : Snake) :
  move s = Ok s1 -> inGrid (head s1).
Proof.
  intros M. rewrite (move_head _ _ M). apply stepped_grid.
Qed.

Lemma move_lands_on_grid_holds :
  inGrid (head (mkSnake (mkPoint 0 0) 0 "x" "x" (mkPoint 1 10) [mkPoint 2000 (-7)])).
Proof.
  apply (move_lands_on_grid
           (mkSnake (mkPoint 0 0) 0 "r" "x" (mkPoint 2000 (-7)) [mkPoint 33 (-4)])).
  reflexivity.
Defined.

(** X11: [move] puts the old head in front of the tail and drops the last
    tail cell, unless growth is owed, in which case it keeps the whole tail;
    it commits the pending direction and leaves the food alone. *)
Theorem move_shifts_body (s s1 : Snake) :
  move s = Ok s1 ->
  tail s1 = head s :: (if growth s >? 0 then tail s else removelast (tail s)) /\
  direction s1 = nextDirection s /\
  nextDirection s1 = nextDirection s /\
  nextPoint s1 = nextPoint s.
Proof.
  intros M. apply move_inv in M as (I1 & I2 & I3 & _ & I5 & _).
  repeat split; try assumption. rewrite I5. f_equal.
  destruct (growth s >? 0).
  - now rewrite Nat.sub_0_r, firstn_all.
  - rewrite removelast_firstn_len. f_equal. lia.
Qed.

Lemma move_shifts_body_holds :
  tail (mkSnake (mkPoint 9 9) 0 "r" "r" (mkPoint 3 3)
          [mkPoint 2 3; mkPoint 2 2; mkPoint 3 2; mkPoint 3 3; mkPoint 3 4]) =
    head (fst beforeBite)
    :: (if growth (fst beforeBite) >? 0 then tail (fst beforeBite)
        else removelast (tail (fst beforeBite))) /\
  "r"%char = nextDirection (pollKeys (only KeyRight) (fst beforeBite)) /\
  "r"%char = nextDirection (pollKeys (only KeyRight) (fst beforeBite)) /\
  mkPoint 9 9 = nextPoint (pollKeys (only KeyRight) (fst beforeBite)).
Proof.
  apply (move_shifts_body (pollKeys (only KeyRight) (fst beforeBite))).
  reflexivity.
Defined.

Lemma step_of_stray (d : ascii) : ~ isDir d -> step_of d = (0, 0).
Proof.
  intros H. unfold step_of.
  destruct (Ascii.eqb_spec d "u"); [exfalso; apply H; unfold isDir; tauto|].
  destruct (Ascii.eqb_spec d "d"); [exfalso; apply H; unfold isDir; tauto|].
  destruct (Ascii.eqb_spec d "l"); [exfalso; apply H; unfold isDir; tauto|].
  destruct (Ascii.eqb_spec d "r"); [exfalso; apply H; unfold isDir; tauto|].
  reflexivity.
Qed.

(** X12: the [switch] of [move] has no default.  With the head on the grid
    and a pending direction byte other than u, d, l, r, a tick leaves the
    head where it was; the old head, now first in the tail, collides with
    it, and [checkCollisions] cuts the tail down to nothing. *)
Theorem stray_direction_empties_tail (src : nat -> Z) (fuel : nat) (s : Snake)
    (pos : nat) (w : World) :
  inGrid (head s) -> ~ isDir (nextDirection s) ->
  advance src fuel s pos = Ok w ->
  head (fst w) = head s /\ tail (fst w) = [].
Proof.
  intros [Hx Hy] Hd A. unfold size in *.
  destruct (advance_shape src _ _ _ _ A) as (s1 & M & E1 & _ & _ & _ & Htail).
  pose proof (move_head _ _ M) as Hh.
  pose proof (move_inv _ _ M) as (_ & _ & _ & _ & I5 & _).
  assert (Hs : head s1 = head s).
  { rewrite Hh. unfold stepped. rewrite (step_of_stray _ Hd). cbn [fst snd].
    rewrite !Z.add_0_r, !wrap64_small by (simpl; lia).
    rewrite !wrapAxis_wrapSpec.
    destruct (wrapSpec_cases (x (head s))) as [[? ?] | [[? ?] | [_ ->]]];
      unfold size in *; try lia.
    destruct (wrapSpec_cases (y (head s))) as [[? ?] | [[? ?] | [_ ->]]];
      unfold size in *; try lia.
    now destruct (head s). }
  split; [congruence|].
  destruct Htail as [[Hoff _] | (mid & post & T & Hmid & ->)].
  - exfalso. apply onTail_false_iff in Hoff. apply Hoff.
    rewrite I5, Hs. now left.
  - destruct mid as [|m mid]; [reflexivity|].
    exfalso. apply onTail_false_iff in Hmid. apply Hmid.
    rewrite I5 in T. cbn [app] in T. injection T as <- _. rewrite Hs. now left.
Qed.

Lemma stray_direction_empties_tail_holds :
  head (fst (checkCollisions
               (mkSnake (mkPoint 0 0) 0 "x" "x" (mkPoint 3 3)
                  [mkPoint 3 3; mkPoint 3 4; mkPoint 3 5; mkPoint 3 6; mkPoint 3 7]),
             0%nat)) = head stray /\
  tail (fst (checkCollisions
               (mkSnake (mkPoint 0 0) 0 "x" "x" (mkPoint 3 3)
                  [mkPoint 3 3; mkPoint 3 4; mkPoint 3 5; mkPoint 3 6; mkPoint 3 7]),
             0%nat)) = [].
Proof.
  apply (stray_direction_empties_tail loopSrc 1 stray 0).
  - unfold inGrid, size. cbn. lia.
  - unfold isDir. cbn. intros [H | [H | [H | H]]]; discriminate H.
  - reflexivity.
Defined.

(** X13: after [checkCollisions] the head is on no tail cell; what is left
    of the tail is a prefix of what was there, all of it when the head was
    on none of its cells; and a second call changes nothing. *)
Theorem checkCollisions_clears_head (s : Snake) :
  ~ In (head s) (tail (checkCollisions s)) /\
  (exists post, tail s = tail (checkCollisions s) ++ post) /\
  (onTail (head s) (tail s) = false -> checkCollisions s = s) /\
  checkCollisions (checkCollisions s) = checkCollisions s.
Proof.
  assert (Hoff : forall s', onTail (head s') (tail s') = false ->
                            checkCollisions s' = s').
  { intros s' H.
    destruct (checkCollisions_cases s') as [[_ E] | (mid & post & T & _ & _)];
      [assumption|].
    exfalso. apply onTail_false_iff in H. apply H.
    rewrite T. apply in_or_app. right. now left. }
  destruct (checkCollisions_cases s) as [[H E] | (mid & post & T & Hmid & E)].
  - rewrite E. split; [now apply onTail_false_iff|].
    split; [exists []; now rewrite app_nil_r|]. split; [auto|]. now apply Hoff.
  - split; [rewrite E; now apply onTail_false_iff|].
    split; [rewrite E; now exists (head s :: post)|]. split; [apply Hoff|].
    rewrite E. apply Hoff. fields. assumption.
Qed.

(** The four tests of [run] all look at the committed direction, which they
    do not change: each one fires when its button is [accepted]. *)
Lemma pollKeys_accepted (pressed : Button -> bool) (s : Snake) :
  pollKeys pressed s =
    (if accepted pressed s KeyDown then setNextDirection "d" s
     else if accepted pressed s KeyUp then setNextDirection "u" s
     else if accepted pressed s KeyRight then setNextDirection "r" s
     else if accepted pressed s KeyLeft then setNextDirection "l" s
     else s).
Proof.
  destruct s as [np g d nd h t]. unfold pollKeys, accepted, isReverse.
  cbn [direction keyDir setNextDirection nextPoint growth nextDirection head tail].
  change (Ascii.eqb "l" "l") with true; change (Ascii.eqb "l" "r") with false;
  change (Ascii.eqb "l" "u") with false; change (Ascii.eqb "l" "d") with false;
  change (Ascii.eqb "r" "l") with false; change (Ascii.eqb "r" "r") with true;
  change (Ascii.eqb "r" "u") with false; change (Ascii.eqb "r" "d") with false;
  change (Ascii.eqb "u" "l") with false; change (Ascii.eqb "u" "r") with false;
  change (Ascii.eqb "u" "u") with true; change (Ascii.eqb "u" "d") with false;
  change (Ascii.eqb "d" "l") with false; change (Ascii.eqb "d" "r") with false;
  change (Ascii.eqb "d" "u") with false; change (Ascii.eqb "d" "d") with true.
  destruct (pressed KeyLeft), (pressed KeyRight), (pressed KeyUp), (pressed KeyDown);
    cbn [andb orb];
    destruct (Ascii.eqb d "r");
    cbn [andb orb negb direction setNextDirection nextPoint growth nextDirection head tail];
    destruct (Ascii.eqb d "l");
    cbn [andb orb negb direction setNextDirection nextPoint growth nextDirection head tail];
    destruct (Ascii.eqb d "d");
    cbn [andb orb negb direction setNextDirection nextPoint growth nextDirection head tail];
    destruct (Ascii.eqb d "u"); reflexivity.
Qed.

(** X14: polling the keys changes nothing but the pending direction, and
    that only to the direction of a button that is held and does not ask
    for the reverse of the committed direction; with no such button the
    snake is left as it is; and polling again with the same buttons held
    changes nothing more. *)
Theorem pollKeys_records_accepted_only (pressed : Button -> bool) (s : Snake) :
  (nextPoint (pollKeys pressed s) = nextPoint s /\
   growth (pollKeys pressed s) = growth s /\
   direction (pollKeys pressed s) = direction s /\
   head (pollKeys pressed s) = head s /\
   tail (pollKeys pressed s) = tail s) /\
  (nextDirection (pollKeys pressed s) = nextDirection s \/
   exists b, accepted pressed s b = true /\
             nextDirection (pollKeys pressed s) = keyDir b) /\
  ((forall b, accepted pressed s b = false) -> pollKeys pressed s = s) /\
  pollKeys pressed (pollKeys pressed s) = pollKeys pressed s.
Proof.
  split; [apply pollKeys_keeps|].
  assert (I : forall b, accepted pressed (pollKeys pressed s) b = accepted pressed s b).
  { intros b. unfold accepted.
    now rewrite (proj1 (proj2 (proj2 (pollKeys_keeps pressed s)))). }
  split; [|split].
  - rewrite pollKeys_accepted.
    destruct (accepted pressed s KeyDown) eqn:D; [right; now exists KeyDown|].
    destruct (accepted pressed s KeyUp) eqn:U; [right; now exists KeyUp|].
    destruct (accepted pressed s KeyRight) eqn:Rt; [right; now exists KeyRight|].
    destruct (accepted pressed s KeyLeft) eqn:L; [right; now exists KeyLeft|].
    now left.
  - intros H. rewrite pollKeys_accepted. now rewrite !H.
  - rewrite (pollKeys_accepted pressed (pollKeys pressed s)), !I.
    rewrite (pollKeys_accepted pressed s).
    destruct (accepted pressed s KeyDown); [reflexivity|].
    destruct (accepted pressed s KeyUp); [reflexivity|].
    destruct (accepted pressed s KeyRight); [reflexivity|].
    destruct (accepted pressed s KeyLeft); reflexivity.
Qed.

(** X15: when several buttons are held, the one tested last among those
    accepted gives the pending direction: Down before Up before Right before
    Left. *)
Theorem pollKeys_last_test_wins (pressed : Button -> bool) (s : Snake) (b : Button) :
  accepted pressed s b = true ->
  (forall b', (keyRank b < keyRank b')%nat -> accepted pressed s b' = false) ->
  nextDirection (pollKeys pressed s) = keyDir b.
Proof.
  intros Hb Hlater. rewrite pollKeys_accepted.
  destruct b; cbn [keyRank] in Hlater;
    rewrite ?(Hlater KeyDown) by (cbn; lia);
    rewrite ?(Hlater KeyUp) by (cbn; lia);
    rewrite ?(Hlater KeyRight) by (cbn; lia);
    rewrite Hb; reflexivity.
Qed.

Lemma pollKeys_last_test_wins_holds :
  nextDirection (pollKeys (fun b => negb (Button_eqb b KeyLeft)) (fst afterBite))
  = keyDir KeyDown.
Proof.
  apply (pollKeys_last_test_wins (fun b => negb (Button_eqb b KeyLeft))
           (fst afterBite) KeyDown).
  - reflexivity.
  - intros b' H. destruct b'; cbn in H; lia.
Defined.

(** ** Rendering *)

Lemma round53_small (z : Z) : Z.abs z < 2 ^ 53 -> round53 z = z.
Proof.
  intros H. unfold round53. apply Z.ltb_lt in H. cbv zeta. now rewrite H.
Qed.

Lemma wrap64_tiny (z : Z) : -1000000 <= z <= 1000000 -> wrap64 z = z.
Proof.
  intros H. apply wrap64_small.
  change (2 ^ 63) with 9223372036854775808. lia.
Qed.

Lemma round53_tiny (z : Z) : -1000000 <= z <= 1000000 -> round53 z = z.
Proof.
  intros H. apply round53_small.
  change (2 ^ 53) with 9007199254740992. lia.
Qed.

Lemma convertCords_grid (cx cy : Z) :
  1 <= cx <= size -> 1 <= cy <= size ->
  convertCords cx cy = ((cx - 1) * polySize, (size - cy) * polySize).
Proof.
  unfold convertCords, float64, size, polySize. intros Hx Hy.
  rewrite (wrap64_tiny (cx - 1)), (wrap64_tiny (10 - cy)) by lia.
  rewrite !wrap64_tiny by lia.
  rewrite !round53_tiny by lia. reflexivity.
Qed.

(** X16: for a cell of the grid, [convertCords] gives, without wrap and
    without rounding, the corner ((x - 1) * 50, (10 - y) * 50): both values
    lie between 0 and 450, row 1 is the top row, and different cells of the
    grid get different corners. *)
Theorem convertCords_on_grid (p : Point) :
  inGrid p ->
  convertCords (x p) (y p) = ((x p - 1) * polySize, (size - y p) * polySize) /\
  0 <= fst (convertCords (x p) (y p)) <= polySize * (size - 1) /\
  0 <= snd (convertCords (x p) (y p)) <= polySize * (size - 1) /\
  forall q, inGrid q -> convertCords (x q) (y q) = convertCords (x p) (y p) -> q = p.
Proof.
  intros [Hx Hy]. rewrite (convertCords_grid _ _ Hx Hy). cbn [fst snd].
  unfold size, polySize in *. repeat split; try lia.
  intros q [Qx Qy]. rewrite (convertCords_grid _ _ Qx Qy).
  unfold size, polySize in *. intros E.
  pose proof (f_equal fst E) as E1. pose proof (f_equal snd E) as E2.
  cbn [fst snd] in E1, E2. apply Point_ext; lia.
Qed.

Lemma convertCords_on_grid_holds :
  convertCords (x (mkPoint 3 8)) (y (mkPoint 3 8)) =
    ((x (mkPoint 3 8) - 1) * polySize, (size - y (mkPoint 3 8)) * polySize) /\
  0 <= fst (convertCords (x (mkPoint 3 8)) (y (mkPoint 3 8))) <= polySize * (size - 1) /\
  0 <= snd (convertCords (x (mkPoint 3 8)) (y (mkPoint 3 8))) <= polySize * (size - 1) /\
  forall q, inGrid q ->
    convertCords (x q) (y q) = convertCords (x (mkPoint 3 8)) (y (mkPoint 3 8)) ->
    q = mkPoint 3 8.
Proof.
  apply (convertCords_on_grid (mkPoint 3 8)). unfold inGrid, size. cbn. lia.
Defined.

Lemma drawSquare_grid (imd : imdraw.IMDraw) (p : Point) (c : pixel.RGBA) :
  inGrid p -> imdraw.points imd = [] ->
  drawSquare imd (x p) (y p) c =
    imdraw.mkIMDraw c [] (imdraw.polygons imd ++ [cellSquare p c]).
Proof.
  intros [Hx Hy] Hp. unfold drawSquare. rewrite (convertCords_grid _ _ Hx Hy).
  unfold imdraw.Polygon, imdraw.Push, imdraw.setColor, cellSquare, squareAt, fadd.
  cbn [imdraw.Color imdraw.points imdraw.polygons map]. rewrite Hp. cbn [app].
  unfold size, polySize in *.
  rewrite !round53_tiny by lia. reflexivity.
Qed.

Lemma drawTail_grid (cells : list Point) : forall imd,
  Forall inGrid cells -> imdraw.points imd = [] ->
  let imd' := fold_left
                (fun imd point => drawSquare imd (x point) (y point) (pixel.RGB 0 0 1))
                cells imd in
  imdraw.points imd' = [] /\
  imdraw.polygons imd' =
    imdraw.polygons imd ++ map (fun p => cellSquare p (pixel.RGB 0 0 1)) cells.
Proof.
  induction cells as [|p cells IH]; intros imd Hg Hp; cbn [fold_left map].
  - now rewrite app_nil_r.
  - inversion Hg as [|? ? Hp1 Hg1]; subst.
    rewrite (drawSquare_grid imd p _ Hp1 Hp).
    destruct (IH (imdraw.mkIMDraw (pixel.RGB 0 0 1) []
                    (imdraw.polygons imd ++ [cellSquare p (pixel.RGB 0 0 1)]))
                Hg1 eq_refl) as [E1 E2].
    cbv zeta in E1, E2. split; [assumption|].
    rewrite E2. cbn [imdraw.polygons]. now rewrite <- app_assoc.
Qed.

Lemma cellSquare_inWindow (p : Point) (c : pixel.RGBA) :
  inGrid p -> Forall inWindow (cellSquare p c).
Proof.
  intros [Hx Hy]. unfold cellSquare, squareAt, inWindow, size, polySize in *.
  repeat constructor; cbn [fst pixel.X pixel.Y]; lia.
Qed.

(** X17: in every state [run] reaches, [Snake_draw] on a drawer with no
    pending points paints one square of side 50 per cell and nothing else:
    the food in green first, the tail cells in blue in order, the head in
    red last.  Every vertex lies inside the 500 x 500 window, no point is
    left pending, and no cell is painted twice. *)
Theorem Snake_draw_paints_cells (src : nat -> Z) (w : World) (imd : imdraw.IMDraw) :
  reachable src w -> imdraw.points imd = [] ->
  imdraw.polygons (Snake_draw (fst w) imd) =
    imdraw.polygons imd
    ++ map (fun pc => cellSquare (fst pc) (snd pc)) (drawnCells (fst w)) /\
  imdraw.points (Snake_draw (fst w) imd) = [] /\
  Forall (Forall inWindow)
         (map (fun pc => cellSquare (fst pc) (snd pc)) (drawnCells (fst w))) /\
  NoDup (map fst (drawnCells (fst w))).
Proof.
  intros R Hp. apply reachable_body in R as [[Hh _ _ _ Hf] _ _ Hg Hfd Hn _ _ _].
  apply occupied_false in Hf as [Hf1 Hf2].
  assert (Hfg : inGrid (nextPoint (fst w))) by (unfold inGrid, size in *; lia).
  unfold Snake_draw. cbv zeta.
  rewrite (drawSquare_grid imd _ _ Hfg Hp).
  destruct (drawTail_grid (tail (fst w))
              (imdraw.mkIMDraw (pixel.RGB 0 1 0) []
                 (imdraw.polygons imd ++ [cellSquare (nextPoint (fst w)) (pixel.RGB 0 1 0)]))
              Hg eq_refl) as [E1 E2].
  cbv zeta in E1, E2.
  rewrite (drawSquare_grid _ _ _ Hh E1). cbn [imdraw.polygons imdraw.points].
  rewrite E2. cbn [imdraw.polygons]. unfold drawnCells.
  split; [|split; [reflexivity|split]].
  - cbn [map fst snd]. rewrite map_app, map_map. cbn [map fst snd].
    now rewrite <- !app_assoc.
  - cbn [map fst snd]. constructor; [now apply cellSquare_inWindow|].
    rewrite map_app, map_map. cbn [map fst snd]. apply Forall_app. split.
    + apply Forall_map. rewrite Forall_forall in *. intros p Hin.
      apply cellSquare_inWindow. now apply Hg.
    + constructor; [now apply cellSquare_inWindow | constructor].
  - cbn [map fst]. rewrite map_app, map_map. cbn [map fst]. rewrite map_id.
    inversion Hn as [|? ? Hn1 Hn2]; subst.
    constructor.
    + intros Hin. apply in_app_or in Hin as [Hin | [Hin | []]];
        [contradiction | congruence].
    + apply NoDup_app; [assumption | repeat constructor; intros [] |].
      intros p Hin [<- | []]. contradiction.
Qed.

Lemma Snake_draw_paints_cells_holds :
  imdraw.polygons (Snake_draw (fst afterBite) imdraw.New) =
    imdraw.polygons imdraw.New
    ++ map (fun pc => cellSquare (fst pc) (snd pc)) (drawnCells (fst afterBite)) /\
  imdraw.points (Snake_draw (fst afterBite) imdraw.New) = [] /\
  Forall (Forall inWindow)
         (map (fun pc => cellSquare (fst pc) (snd pc)) (drawnCells (fst afterBite))) /\
  NoDup (map fst (drawnCells (fst afterBite))).
Proof.
  apply (Snake_draw_paints_cells loopSrc afterBite imdraw.New).
  - apply (run_reachable loopSrc 1 [idle; tick KeyLeft; tick KeyDown; tick KeyRight]).
    reflexivity.
  - reflexivity.
Defined.
